(** * A segment tree over a flat array: point update and range query

    Shallow embedding of [segment_tree<T>] (src/segtree.cpp, and its
    commented twin src/unnamed/part_000) with machine integers of the
    widths the C++ code uses, and the properties of its public interface. *)

From Stdlib Require Import ZArith Lia.
From stdpp Require Import base list.

Local Open Scope Z_scope.
Set Warnings "-clear-no-such-hyp".

(** ** Machine integers

    [int] is a 32-bit two's complement integer and [size_t] a 64-bit
    unsigned one.  Both are carried by [Z]; unsigned arithmetic wraps
    around, signed overflow is undefined behaviour and is reported as a
    crash by [int_chk] below. *)

Definition int := Z.
Definition size_t := Z.

Definition INT_MIN : Z := - 2 ^ 31.
Definition INT_MAX : Z := 2 ^ 31 - 1.
Definition SIZE_MOD : Z := 2 ^ 64.

(** Conversion to [size_t] (value modulo 2^64), used for every unsigned
    operation and for the [int] to [size_t] conversion of a subscript. *)
Definition to_size_t (z : Z) : size_t := z mod SIZE_MOD.

Definition size_add (a b : size_t) : size_t := to_size_t (a + b).
Definition size_sub (a b : size_t) : size_t := to_size_t (a - b).
Definition size_mul (a b : size_t) : size_t := to_size_t (a * b).

(** Wrapping 32-bit result of an [int] operation, for the combiners on
    [int] that the usage example plugs in. *)
Definition wrap_int (z : Z) : int := (z - INT_MIN) mod 2 ^ 32 + INT_MIN.

(** Half the range of [size_t]: below it no sum of two indices wraps. *)
Definition HALF : Z := 2 ^ 63.

(** An upper bound on [std::vector<T>::max_size()]: no vector holds more
    than PTRDIFF_MAX elements. *)
Definition vector_max_size : Z := 2 ^ 63 - 1.

(** [vec.size()]: the length as a [size_t]. *)
Definition vec_size {A : Type} (vec : list A) : size_t :=
  to_size_t (Z.of_nat (length vec)).

(** ** Outcomes

    [Ok] is a normal return.  [Crash] stands for everything after which
    the C++ program has no defined result: an out-of-range subscript, a
    signed overflow, an exception leaving a constructor.  [OutOfFuel] is
    the recursion bound of this embedding running out. *)

Inductive result (A : Type) : Type :=
  | Ok (a : A)
  | Crash
  | OutOfFuel.

Arguments Ok {A} a.
Arguments Crash {A}.
Arguments OutOfFuel {A}.

Definition result_bind {A B : Type} (m : result A) (k : A → result B) : result B :=
  match m with
  | Ok a => k a
  | Crash => Crash
  | OutOfFuel => OutOfFuel
  end.

Definition result_map {A B : Type} (f : A → B) (m : result A) : result B :=
  result_bind m (λ a, Ok (f a)).

(** ** The object and the monad of its member functions *)

Section monad.
Context {T : Type}.

(** [segment_tree<T>]: the private data members. *)
Record segment_tree : Type := SegmentTree {
  n : size_t;
  tree : list T;
  foo : T → T → T
}.

(** A member function: it reads and writes the object and returns, or
    crashes, or runs out of fuel. *)
Definition M (A : Type) : Type := segment_tree → result (A * segment_tree).

Definition ret {A : Type} (a : A) : M A := λ s, Ok (a, s).

Definition bind {A B : Type} (m : M A) (k : A → M B) : M B :=
  λ s, match m s with
       | Ok (a, s') => k a s'
       | Crash => Crash
       | OutOfFuel => OutOfFuel
       end.

Definition crash {A : Type} : M A := λ _, Crash.
Definition out_of_fuel {A : Type} : M A := λ _, OutOfFuel.

(** The value a member function returns, without the final object. *)
Definition eval {A : Type} (m : M A) (s : segment_tree) : result A :=
  result_map fst (m s).

(** The object a member function leaves, without the value. *)
Definition exec {A : Type} (m : M A) (s : segment_tree) : result segment_tree :=
  result_map snd (m s).

(** An [int] expression: a value outside the range of [int] is a signed
    overflow. *)
Definition int_chk (z : Z) : M int :=
  if decide (INT_MIN ≤ z ≤ INT_MAX) then ret z else crash.

(** The subscripts [2 * v] and [2 * v + 1], computed in [int]. *)
Definition left_child (v : int) : M int := int_chk (2 * v).
Definition right_child (v : int) : M int :=
  bind (int_chk (2 * v)) (λ w, int_chk (w + 1)).

(** [tree[v]] as a value; the [int] subscript converts to [size_t]. *)
Definition tree_read (v : int) : M T :=
  λ s, match tree s !! Z.to_nat (to_size_t v) with
       | Some x => Ok (x, s)
       | None => Crash
       end.

(** [tree[v] = x]. *)
Definition tree_write (v : int) (x : T) : M unit :=
  λ s, if decide (Z.to_nat (to_size_t v) < length (tree s))%nat
       then Ok (tt, SegmentTree (n s) (<[Z.to_nat (to_size_t v) := x]> (tree s)) (foo s))
       else Crash.

(** [foo(a, b)] with the stored combiner. *)
Definition call_foo (a b : T) : M T := λ s, Ok (foo s a b, s).

(** The data member [n]. *)
Definition read_n : M size_t := λ s, Ok (n s, s).

(** [vec[l]] on the argument vector. *)
Definition vec_read {A : Type} (vec : list A) (l : size_t) : M A :=
  match vec !! Z.to_nat l with
  | Some x => ret x
  | None => crash
  end.

(** [tree.assign(count, x)] on a fresh vector: [length_error] when
    [count] exceeds [max_size()]. *)
Definition vector_assign (count : size_t) (x : T) : result (list T) :=
  if decide (count ≤ vector_max_size)
  then Ok (replicate (Z.to_nat count) x)
  else Crash.

End monad.

Arguments segment_tree T : clear implicits.
Arguments M T A : clear implicits.

Notation "'let*' x ':=' m 'in' k" := (bind m (λ x, k))
  (at level 10, x name, m at level 100, k at level 200,
   format "'[v' 'let*'  x  ':='  m  'in'  '/' k ']'").
Notation "'let*' '_' ':=' m 'in' k" := (bind m (λ _, k))
  (at level 10, m at level 100, k at level 200,
   format "'[v' 'let*'  '_'  ':='  m  'in'  '/' k ']'").

(** ** The class [segment_tree<T>] (src/segtree.cpp) *)

Section segment_tree.
Context {T : Type}.

(** The conversion from [int] to [T]: [T(0)] in the constructors and in
    the public [get], and the assignment [tree[v] = vec[l]] of an [int]
    to a slot in [build]. *)
Variable T_of_int : int → T.

(** [a + b] on [T], the default combiner. *)
Variable T_plus : T → T → T.

(** [build(vec, v, l, r)].  The parameter is a [std::vector<int>]. *)
Fixpoint build (fuel : nat) (vec : list int) (v : int) (l r : size_t) : M T unit :=
  match fuel with
  | O => out_of_fuel
  | S fuel =>
      if decide (l = r) then
        let* x := vec_read vec l in
        tree_write v (T_of_int x)
      else
        let mid := size_add l r / 2 in
        let* vl := left_child v in
        let* _ := build fuel vec vl l mid in
        let* vr := right_child v in
        let* _ := build fuel vec vr (size_add mid 1) r in
        let* vl := left_child v in
        let* a := tree_read vl in
        let* vr := right_child v in
        let* b := tree_read vr in
        let* y := call_foo a b in
        tree_write v y
  end.

(** [update(idx, val, v, l, r)]. *)
Fixpoint update (fuel : nat) (idx : size_t) (val : T) (v : int) (l r : size_t) : M T unit :=
  match fuel with
  | O => out_of_fuel
  | S fuel =>
      if decide (l = r) then
        tree_write v val
      else
        let mid := size_add l r / 2 in
        let* _ :=
          (if decide (idx ≤ mid) then
             let* vl := left_child v in
             update fuel idx val vl l mid
           else
             let* vr := right_child v in
             update fuel idx val vr (size_add mid 1) r) in
        let* vl := left_child v in
        let* a := tree_read vl in
        let* vr := right_child v in
        let* b := tree_read vr in
        let* y := call_foo a b in
        tree_write v y
  end.

(** The private [get(left, right, v, l, r)]. *)
Fixpoint get_rec (fuel : nat) (left right : size_t) (v : int) (l r : size_t) : M T T :=
  match fuel with
  | O => out_of_fuel
  | S fuel =>
      if decide (left ≤ l ∧ r ≤ right) then
        tree_read v
      else
        let mid := size_add l r / 2 in
        if decide (right ≤ mid) then
          let* vl := left_child v in
          get_rec fuel left right vl l mid
        else if decide (left > mid) then
          let* vr := right_child v in
          get_rec fuel left right vr (size_add mid 1) r
        else
          let* vl := left_child v in
          let* a := get_rec fuel left right vl l mid in
          let* vr := right_child v in
          let* b := get_rec fuel left right vr (size_add mid 1) r in
          call_foo a b
  end.

(** The recursion bound the public entry points hand to the private
    functions: the number of elements.  (The recursion is in fact only
    logarithmically deep, see [log_fuel].) *)
Definition fuel_of (cnt : size_t) : nat := Z.to_nat cnt.

(** [segment_tree(int n, foo)]: [n(n)], [foo(foo)], then
    [tree.assign(4 * n, T(0))] where [n] is the [int] parameter. *)
Definition segment_tree_n_foo (cnt : int) (f : T → T → T) : result (segment_tree T) :=
  if decide (INT_MIN ≤ 4 * cnt ≤ INT_MAX) then
    result_bind (vector_assign (to_size_t (4 * cnt)) (T_of_int 0)) (λ tr,
    Ok (SegmentTree (to_size_t cnt) tr f))
  else Crash.

(** [segment_tree(int n)]. *)
Definition segment_tree_n (cnt : int) : result (segment_tree T) :=
  if decide (INT_MIN ≤ 4 * cnt ≤ INT_MAX) then
    result_bind (vector_assign (to_size_t (4 * cnt)) (T_of_int 0)) (λ tr,
    Ok (SegmentTree (to_size_t cnt) tr T_plus))
  else Crash.

(** [segment_tree(const std::vector<T>& vec, foo)].  The constructor
    hands [vec] to [build], whose parameter is a [std::vector<int>]: it
    exists only for [T = int], so the argument is a vector of [int]. *)
Definition segment_tree_vec_foo (vec : list int) (f : T → T → T) : result (segment_tree T) :=
  let cnt := vec_size vec in
  result_bind (vector_assign (size_mul 4 cnt) (T_of_int 0)) (λ tr,
  let s := SegmentTree cnt tr f in
  if decide (cnt ≠ 0) then
    exec (build (fuel_of cnt) vec 1 0 (size_sub cnt 1)) s
  else Ok s).

(** [segment_tree(const std::vector<T>& vec)]. *)
Definition segment_tree_vec (vec : list int) : result (segment_tree T) :=
  let cnt := vec_size vec in
  result_bind (vector_assign (size_mul 4 cnt) (T_of_int 0)) (λ tr,
  let s := SegmentTree cnt tr T_plus in
  if decide (cnt ≠ 0) then
    exec (build (fuel_of cnt) vec 1 0 (size_sub cnt 1)) s
  else Ok s).

(** [update_point(point, new_val)]. *)
Definition update_point (point : size_t) (new_val : T) : M T unit :=
  let* cnt := read_n in
  if decide (point < cnt) then
    update (fuel_of cnt) point new_val 1 0 (size_sub cnt 1)
  else ret tt.

(** The public [get(left, right)]. *)
Definition get (left right : size_t) : M T T :=
  let* cnt := read_n in
  if decide (left ≤ right ∧ right < cnt) then
    get_rec (fuel_of cnt) left right 1 0 (size_sub cnt 1)
  else ret (T_of_int 0).

End segment_tree.

(** ** The usage example of [main], at [T = int] *)

Definition int_plus (a b : int) : int := wrap_int (a + b).
Definition int_times (a b : int) : int := wrap_int (a * b).

Definition main_v : list int := [2; 4; 1; 42; 9].

Definition st_sum : result (segment_tree int) := segment_tree_vec id int_plus main_v.

Definition st_prd : result (segment_tree int) := segment_tree_vec_foo id main_v int_times.

(** The two objects of [main] after construction. *)
Definition st_sum_tree : segment_tree int :=
  SegmentTree 5 [0; 58; 7; 51; 6; 1; 42; 9; 2; 4; 0; 0; 0; 0; 0; 0; 0; 0; 0; 0] int_plus.

Definition st_prd_tree : segment_tree int :=
  SegmentTree 5 [0; 3024; 8; 378; 8; 1; 42; 9; 2; 4; 0; 0; 0; 0; 0; 0; 0; 0; 0; 0] int_times.

(** The object built from the empty sequence. *)
Definition empty_tree {T : Type} (f : T → T → T) : segment_tree T := SegmentTree 0 [] f.

(** ** The twin class of src/unnamed/part_000

    The same class with its comments; [build] takes a [std::vector<T>].
    Its default constructor is not modelled: it is not among the
    constructors the two files share. *)

Module Part000.
Section segment_tree.
Context {T : Type}.

(** [T(0)]. *)
Variable T_zero : T.

(** [a + b] on [T]. *)
Variable T_plus : T → T → T.

Fixpoint build (fuel : nat) (vec : list T) (v : int) (l r : size_t) : M T unit :=
  match fuel with
  | O => out_of_fuel
  | S fuel =>
      if decide (l = r) then
        let* x := vec_read vec l in
        tree_write v x
      else
        let mid := size_add l r / 2 in
        let* vl := left_child v in
        let* _ := build fuel vec vl l mid in
        let* vr := right_child v in
        let* _ := build fuel vec vr (size_add mid 1) r in
        let* vl := left_child v in
        let* a := tree_read vl in
        let* vr := right_child v in
        let* b := tree_read vr in
        let* y := call_foo a b in
        tree_write v y
  end.

Fixpoint update (fuel : nat) (idx : size_t) (val : T) (v : int) (l r : size_t) : M T unit :=
  match fuel with
  | O => out_of_fuel
  | S fuel =>
      if decide (l = r) then
        tree_write v val
      else
        let mid := size_add l r / 2 in
        let* _ :=
          (if decide (idx ≤ mid) then
             let* vl := left_child v in
             update fuel idx val vl l mid
           else
             let* vr := right_child v in
             update fuel idx val vr (size_add mid 1) r) in
        let* vl := left_child v in
        let* a := tree_read vl in
        let* vr := right_child v in
        let* b := tree_read vr in
        let* y := call_foo a b in
        tree_write v y
  end.

Fixpoint get_rec (fuel : nat) (left right : size_t) (v : int) (l r : size_t) : M T T :=
  match fuel with
  | O => out_of_fuel
  | S fuel =>
      if decide (left ≤ l ∧ r ≤ right) then
        tree_read v
      else
        let mid := size_add l r / 2 in
        if decide (right ≤ mid) then
          let* vl := left_child v in
          get_rec fuel left right vl l mid
        else if decide (left > mid) then
          let* vr := right_child v in
          get_rec fuel left right vr (size_add mid 1) r
        else
          let* vl := left_child v in
          let* a := get_rec fuel left right vl l mid in
          let* vr := right_child v in
          let* b := get_rec fuel left right vr (size_add mid 1) r in
          call_foo a b
  end.

Definition segment_tree_n_foo (cnt : int) (f : T → T → T) : result (segment_tree T) :=
  if decide (INT_MIN ≤ 4 * cnt ≤ INT_MAX) then
    result_bind (vector_assign (to_size_t (4 * cnt)) T_zero) (λ tr,
    Ok (SegmentTree (to_size_t cnt) tr f))
  else Crash.

Definition segment_tree_n (cnt : int) : result (segment_tree T) :=
  if decide (INT_MIN ≤ 4 * cnt ≤ INT_MAX) then
    result_bind (vector_assign (to_size_t (4 * cnt)) T_zero) (λ tr,
    Ok (SegmentTree (to_size_t cnt) tr T_plus))
  else Crash.

Definition segment_tree_vec_foo (vec : list T) (f : T → T → T) : result (segment_tree T) :=
  let cnt := vec_size vec in
  result_bind (vector_assign (size_mul 4 cnt) T_zero) (λ tr,
  let s := SegmentTree cnt tr f in
  if decide (cnt ≠ 0) then
    exec (build (fuel_of cnt) vec 1 0 (size_sub cnt 1)) s
  else Ok s).

Definition segment_tree_vec (vec : list T) : result (segment_tree T) :=
  let cnt := vec_size vec in
  result_bind (vector_assign (size_mul 4 cnt) T_zero) (λ tr,
  let s := SegmentTree cnt tr T_plus in
  if decide (cnt ≠ 0) then
    exec (build (fuel_of cnt) vec 1 0 (size_sub cnt 1)) s
  else Ok s).

Definition update_point (point : size_t) (new_val : T) : M T unit :=
  let* cnt := read_n in
  if decide (point < cnt) then
    update (fuel_of cnt) point new_val 1 0 (size_sub cnt 1)
  else ret tt.

Definition get (left right : size_t) : M T T :=
  let* cnt := read_n in
  if decide (left ≤ right ∧ right < cnt) then
    get_rec (fuel_of cnt) left right 1 0 (size_sub cnt 1)
  else ret T_zero.

End segment_tree.
End Part000.

(** ** Clients of the public interface, at [T = int] *)

(** The four constructors the two files share. *)
Inductive ctor : Type :=
  | NewNFoo (cnt : int) (f : int → int → int)
  | NewN (cnt : int)
  | FromVecFoo (vec : list int) (f : int → int → int)
  | FromVec (vec : list int).

(** A call on a constructed tree. *)
Inductive call : Type :=
  | UpdatePoint (point : size_t) (new_val : int)
  | Get (left right : size_t).

(** What one of the two classes offers to a client. *)
Record interface : Type := Interface {
  construct : ctor → result (segment_tree int);
  do_update_point : size_t → int → M int unit;
  do_get : size_t → size_t → M int int
}.

Definition segtree_cpp : interface :=
  Interface
    (λ c, match c with
          | NewNFoo cnt f => segment_tree_n_foo id cnt f
          | NewN cnt => segment_tree_n id int_plus cnt
          | FromVecFoo vec f => segment_tree_vec_foo id vec f
          | FromVec vec => segment_tree_vec id int_plus vec
          end)
    update_point
    (get id).

Definition part_000 : interface :=
  Interface
    (λ c, match c with
          | NewNFoo cnt f => Part000.segment_tree_n_foo 0 cnt f
          | NewN cnt => Part000.segment_tree_n 0 int_plus cnt
          | FromVecFoo vec f => Part000.segment_tree_vec_foo 0 vec f
          | FromVec vec => Part000.segment_tree_vec 0 int_plus vec
          end)
    Part000.update_point
    (Part000.get 0).

(** The results of the [get] calls of a client, in order. *)
Fixpoint observe_calls (I : interface) (calls : list call) (s : segment_tree int)
    : result (list int) :=
  match calls with
  | [] => Ok []
  | UpdatePoint point new_val :: calls =>
      result_bind (exec (do_update_point I point new_val) s) (observe_calls I calls)
  | Get lo hi :: calls =>
      result_bind (do_get I lo hi s) (λ '(x, s'),
      result_map (cons x) (observe_calls I calls s'))
  end.

Definition observe (I : interface) (c : ctor) (calls : list call) : result (list int) :=
  result_bind (construct I c) (observe_calls I calls).

(** ** Specification vocabulary *)

Section spec.
Context {T : Type}.
Variable T_of_int : int → T.
Variable T_plus : T → T → T.

(** [e] is the neutral element of the combiner [f]. *)
Definition is_identity (f : T → T → T) (e : T) : Prop :=
  ∀ x, f e x = x ∧ f x e = x.

(** The slots below slot [v] in the implicit tree: at depth [k] under
    [v] they are the [2^k] slots from [v * 2^k]. *)
Definition desc (v w : Z) : Prop :=
  ∃ k : nat, v * 2 ^ Z.of_nat k ≤ w < (v + 1) * 2 ^ Z.of_nat k.

(** Two objects with the same size, combiner and capacity, and the same
    contents in the slots that satisfy [P]. *)
Definition same_on (P : Z → Prop) (s s' : segment_tree T) : Prop :=
  n s = n s' ∧ foo s = foo s' ∧ length (tree s) = length (tree s') ∧
  ∀ w, 0 ≤ w → P w → tree s !! Z.to_nat w = tree s' !! Z.to_nat w.

(** A member function that returns leaves the object as it found it. *)
Definition readonly {A : Type} (m : M T A) : Prop :=
  ∀ s a s', m s = Ok (a, s') → s' = s.

(** A read-only member function whose outcome depends on the slots in
    [P] only. *)
Definition reads_only (P : Z → Prop) {A : Type} (m : M T A) : Prop :=
  readonly m ∧ ∀ s s', same_on P s s' → eval m s = eval m s'.

(** A member function that writes to slots in [P] only. *)
Definition writes_only (P : Z → Prop) {A : Type} (m : M T A) : Prop :=
  ∀ s a s', m s = Ok (a, s') → same_on (λ w, ¬ P w) s s'.

(** The statement [tree[v] = foo(tree[2 * v], tree[2 * v + 1])] that
    ends [build] and [update] at an internal slot. *)
Definition pull_up (v : int) : M T unit :=
  let* vl := left_child v in
  let* a := tree_read vl in
  let* vr := right_child v in
  let* b := tree_read vr in
  let* y := call_foo a b in
  tree_write v y.

(** The recursion on [(v, l, r)] stays inside an [int] subscript, inside
    a storage of [len] slots and inside ranges that do not wrap, and is
    at most [h] calls deep below the first. *)
Inductive alloc (len : Z) : nat → Z → Z → Z → Prop :=
  | alloc_leaf h v l :
      0 < v → v ≤ INT_MAX → v < len → 0 ≤ l → l < HALF →
      alloc len h v l l
  | alloc_node h v l r :
      0 < v → 2 * v + 1 ≤ INT_MAX → v < len → 0 ≤ l → l < r → r < HALF →
      alloc len h (2 * v) l ((l + r) / 2) →
      alloc len h (2 * v + 1) ((l + r) / 2 + 1) r →
      alloc len (S h) v l r.

(** Slot [v] covers the range [[l, r]] of a tree of [cnt] elements. *)
Inductive covers (cnt : Z) : Z → Z → Z → Prop :=
  | covers_root : covers cnt 1 0 (cnt - 1)
  | covers_left v l r :
      covers cnt v l r → l < r → covers cnt (2 * v) l ((l + r) / 2)
  | covers_right v l r :
      covers cnt v l r → l < r → covers cnt (2 * v + 1) ((l + r) / 2 + 1) r.

(** The subtree at slot [v] stores the values [vals] of the range
    [[l, r]]: a leaf holds its value, an internal slot the combination
    of its two children. *)
Inductive shaped (s : segment_tree T) (vals : list T) : Z → Z → Z → Prop :=
  | shaped_leaf v l x :
      0 < v → 0 ≤ l →
      tree s !! Z.to_nat v = Some x →
      vals !! Z.to_nat l = Some x →
      shaped s vals v l l
  | shaped_node v l r a b :
      0 < v → 0 ≤ l → l < r →
      shaped s vals (2 * v) l ((l + r) / 2) →
      shaped s vals (2 * v + 1) ((l + r) / 2 + 1) r →
      tree s !! Z.to_nat (2 * v) = Some a →
      tree s !! Z.to_nat (2 * v + 1) = Some b →
      tree s !! Z.to_nat v = Some (foo s a b) →
      shaped s vals v l r.

(** The values at positions [a..b] of a sequence, and their fold under
    [f] from the left, in the order of the positions. *)
Definition range (vals : list T) (a b : Z) : list T :=
  take (Z.to_nat (b - a + 1)) (drop (Z.to_nat a) vals).

Definition fold1 (f : T → T → T) (xs : list T) : option T :=
  match xs with
  | [] => None
  | x :: xs => Some (foldl f x xs)
  end.

Definition range_fold (f : T → T → T) (vals : list T) (a b : Z) : option T :=
  fold1 f (range vals a b).

(** The sizes and capacities the constructors produce. *)
Definition wf (s : segment_tree T) : Prop :=
  0 ≤ n s ∧ n s ≤ 2 ^ 30 ∧ Z.of_nat (length (tree s)) = 4 * n s.

(** A sequence of point updates, on the object and on the sequence of
    values it stands for. *)
Fixpoint run_updates (ups : list (size_t * T)) (s : segment_tree T)
    : result (segment_tree T) :=
  match ups with
  | [] => Ok s
  | u :: ups => result_bind (exec (update_point u.1 u.2) s) (run_updates ups)
  end.

Definition logical (vals : list T) (ups : list (size_t * T)) : list T :=
  foldl (λ acc u, <[Z.to_nat u.1 := u.2]> acc) vals ups.

(** The object stands for the values [vals]. *)
Definition represents (s : segment_tree T) (vals : list T) : Prop :=
  wf s ∧ n s ≤ Z.of_nat (length vals) ∧ (0 < n s → shaped s vals 1 0 (n s - 1)).

(** The object is the result of one of the two constructors from a
    sequence, with combiner [f]. *)
Definition built_from (vec : list int) (f : T → T → T) (s : segment_tree T) : Prop :=
  segment_tree_vec_foo T_of_int vec f = Ok s ∨
  (f = T_plus ∧ segment_tree_vec T_of_int T_plus vec = Ok s).

(** A recursion bound logarithmic in the number of elements. *)
Definition log_fuel (cnt : size_t) : nat := S (Z.to_nat (Z.log2_up cnt)).

(** The objects a client can hold: the results of the four constructors
    and of [update_point] on them. *)
Inductive reachable : segment_tree T → Prop :=
  | reach_n_foo cnt f s :
      segment_tree_n_foo T_of_int cnt f = Ok s → reachable s
  | reach_n cnt s :
      segment_tree_n T_of_int T_plus cnt = Ok s → reachable s
  | reach_vec_foo vec f s :
      segment_tree_vec_foo T_of_int vec f = Ok s → reachable s
  | reach_vec vec s :
      segment_tree_vec T_of_int T_plus vec = Ok s → reachable s
  | reach_update point new_val s s' :
      reachable s → exec (update_point point new_val) s = Ok s' → reachable s'.

End spec.

(** ** Further vocabulary: construction from a size, and the path of an
    update *)

Section more_vocabulary.
Context {T : Type}.
Variable T_of_int : int → T.
Variable T_plus : T → T → T.

(** The object is the result of one of the two constructors from a
    size, with combiner [f]. *)
Definition sized_as (cnt : int) (f : T → T → T) (s : segment_tree T) : Prop :=
  segment_tree_n_foo T_of_int cnt f = Ok s ∨
  (f = T_plus ∧ segment_tree_n T_of_int T_plus cnt = Ok s).

(** The sequence a freshly constructed object starts from: [cnt] times
    [T(0)] after a constructor from a size, the converted elements after
    a constructor from a vector. *)
Inductive starts_from : segment_tree T → list T → Prop :=
  | starts_sized cnt f s :
      sized_as cnt f s →
      starts_from s (replicate (Z.to_nat cnt) (T_of_int 0))
  | starts_built vec f s :
      built_from T_of_int T_plus vec f s →
      starts_from s (T_of_int <$> vec).

(** The slots [update] visits from slot [v], which covers [[l, r]], on
    its way down to the leaf of position [idx]. *)
Inductive path (idx : Z) : Z → Z → Z → Z → Prop :=
  | path_here v l r : path idx v l r v
  | path_left v l r w :
      l < r → idx ≤ (l + r) / 2 →
      path idx (2 * v) l ((l + r) / 2) w →
      path idx v l r w
  | path_right v l r w :
      l < r → (l + r) / 2 < idx →
      path idx (2 * v + 1) ((l + r) / 2 + 1) r w →
      path idx v l r w.

End more_vocabulary.

(** ** Arithmetic of the machine integers *)

Ltac Zify.zify_post_hook ::= Z.to_euclidean_division_equations.

Lemma SIZE_MOD_eq : SIZE_MOD = 18446744073709551616.
Proof. reflexivity. Qed.

Lemma INT_MAX_eq : INT_MAX = 2147483647.
Proof. reflexivity. Qed.

Lemma INT_MIN_eq : INT_MIN = -2147483648.
Proof. reflexivity. Qed.

Lemma HALF_eq : HALF = 9223372036854775808.
Proof. reflexivity. Qed.

Lemma vector_max_size_eq : vector_max_size = 9223372036854775807.
Proof. reflexivity. Qed.

Global Opaque SIZE_MOD INT_MAX INT_MIN HALF vector_max_size.

Ltac machine :=
  rewrite ?SIZE_MOD_eq, ?INT_MAX_eq, ?INT_MIN_eq, ?HALF_eq, ?vector_max_size_eq in *.

Ltac mlia := machine; lia.

Lemma to_size_t_small (z : Z) : 0 ≤ z < SIZE_MOD → to_size_t z = z.
Proof. intros Hz. unfold to_size_t. by apply Z.mod_small. Qed.

Lemma to_size_t_range (z : Z) : 0 ≤ to_size_t z < SIZE_MOD.
Proof. unfold to_size_t. machine. lia. Qed.

(** The midpoint [(l + r) / 2] and its successor, without wrap-around. *)
Lemma mid_eq (l r : Z) : 0 ≤ l → l ≤ r → r < HALF → size_add l r / 2 = (l + r) / 2.
Proof.
  intros. unfold size_add. rewrite to_size_t_small; [done|]. machine. lia.
Qed.

Lemma mid_succ_eq (l r : Z) :
  0 ≤ l → l ≤ r → r < HALF → size_add ((l + r) / 2) 1 = (l + r) / 2 + 1.
Proof.
  intros. unfold size_add. rewrite to_size_t_small; [done|]. machine. lia.
Qed.

(** Each half of a range of two or more positions is a shorter range:
    the descent of [build], [update] and [get] is strict. *)
Lemma mid_bounds (l r : Z) : l < r → l ≤ (l + r) / 2 < r.
Proof. lia. Qed.

Lemma pow2_30_eq : 2 ^ 30 = 1073741824.
Proof. reflexivity. Qed.

Lemma pow2_pos (k : nat) : 0 < 2 ^ Z.of_nat k.
Proof. apply Z.pow_pos_nonneg; lia. Qed.

Lemma pow2_succ (k : nat) : 2 ^ Z.of_nat (S k) = 2 * 2 ^ Z.of_nat k.
Proof. rewrite Nat2Z.inj_succ. apply Z.pow_succ_r. lia. Qed.

Lemma pow2_add (k d : nat) : 2 ^ Z.of_nat (k + d) = 2 ^ Z.of_nat k * 2 ^ Z.of_nat d.
Proof. rewrite Nat2Z.inj_add. apply Z.pow_add_r; lia. Qed.

(** ** The implicit tree: slots below a slot *)

Lemma desc_refl (v : Z) : desc v v.
Proof. exists 0%nat. simpl. lia. Qed.

Lemma desc_left (v w : Z) : desc (2 * v) w → desc v w.
Proof.
  intros [k Hk]. exists (S k). rewrite pow2_succ.
  pose proof (pow2_pos k). nia.
Qed.

Lemma desc_right (v w : Z) : desc (2 * v + 1) w → desc v w.
Proof.
  intros [k Hk]. exists (S k). rewrite pow2_succ.
  pose proof (pow2_pos k). nia.
Qed.

Lemma desc_ge (v w : Z) : 0 < v → desc v w → v ≤ w.
Proof. intros Hv [k Hk]. pose proof (pow2_pos k). nia. Qed.

Lemma desc_left_ne (v w : Z) : 0 < v → desc (2 * v) w → w ≠ v.
Proof. intros Hv Hd%desc_ge; lia. Qed.

Lemma desc_right_ne (v w : Z) : 0 < v → desc (2 * v + 1) w → w ≠ v.
Proof. intros Hv Hd%desc_ge; lia. Qed.

(** The two subtrees of a slot share no slot. *)
Lemma desc_disjoint (v w : Z) : 0 < v → desc (2 * v) w → desc (2 * v + 1) w → False.
Proof.
  intros Hv [k Hk] [k' Hk'].
  destruct (decide (k ≤ k')%nat) as [Hle|Hgt].
  - replace k' with (k + (k' - k))%nat in Hk' by lia.
    rewrite pow2_add in Hk'.
    pose proof (pow2_pos k). pose proof (pow2_pos (k' - k)). nia.
  - replace k with (k' + S (k - k' - 1))%nat in Hk by lia.
    rewrite pow2_add, pow2_succ in Hk.
    pose proof (pow2_pos k'). pose proof (pow2_pos (k - k' - 1)). nia.
Qed.

(** ** Running the primitives *)

Section monad_lemmas.
Context {T : Type}.
Implicit Types (s : segment_tree T) (v w : Z).

Lemma bind_Ok {A B : Type} (m : M T A) (k : A → M T B) s b s2 :
  bind m k s = Ok (b, s2) ↔ ∃ a s1, m s = Ok (a, s1) ∧ k a s1 = Ok (b, s2).
Proof.
  unfold bind. split.
  - destruct (m s) as [[a s1]| |]; [eauto|done..].
  - by intros (a & s1 & -> & ?).
Qed.

Lemma bind_run {A B : Type} (m : M T A) (k : A → M T B) s a s1 :
  m s = Ok (a, s1) → bind m k s = k a s1.
Proof. unfold bind. by intros ->. Qed.

Lemma bind_assoc {A B C : Type} (m : M T A) (k : A → M T B) (k' : B → M T C) s :
  bind (bind m k) k' s = bind m (λ a, bind (k a) k') s.
Proof. unfold bind. by destruct (m s) as [[a s1]| |]. Qed.

Lemma int_chk_run z s : INT_MIN ≤ z ≤ INT_MAX → @int_chk T z s = Ok (z, s).
Proof. intros. unfold int_chk. by rewrite decide_True. Qed.

Lemma int_chk_Ok z s a s1 :
  @int_chk T z s = Ok (a, s1) ↔ a = z ∧ s1 = s ∧ INT_MIN ≤ z ≤ INT_MAX.
Proof.
  unfold int_chk, ret, crash. destruct (decide _); split.
  - by intros [= <- <-].
  - by intros (-> & -> & _).
  - done.
  - by intros (_ & _ & ?).
Qed.

Lemma left_child_run v s :
  INT_MIN ≤ 2 * v ≤ INT_MAX → @left_child T v s = Ok (2 * v, s).
Proof. apply int_chk_run. Qed.

Lemma left_child_Ok v s a s1 :
  @left_child T v s = Ok (a, s1) ↔ a = 2 * v ∧ s1 = s ∧ INT_MIN ≤ 2 * v ≤ INT_MAX.
Proof. apply int_chk_Ok. Qed.

Lemma right_child_run v s :
  INT_MIN ≤ 2 * v → 2 * v + 1 ≤ INT_MAX → @right_child T v s = Ok (2 * v + 1, s).
Proof.
  intros. unfold right_child.
  rewrite (bind_run _ _ _ (2 * v) s) by (apply int_chk_run; lia).
  apply int_chk_run; lia.
Qed.

Lemma right_child_Ok v s a s1 :
  @right_child T v s = Ok (a, s1) ↔
  a = 2 * v + 1 ∧ s1 = s ∧ INT_MIN ≤ 2 * v ∧ 2 * v + 1 ≤ INT_MAX.
Proof.
  unfold right_child. rewrite bind_Ok. split.
  - intros (w & s' & (-> & -> & ?)%int_chk_Ok & (-> & -> & ?)%int_chk_Ok).
    repeat split; lia.
  - intros (-> & -> & ? & ?). exists (2 * v), s.
    rewrite !int_chk_Ok. repeat split; lia.
Qed.

Lemma tree_read_Ok v s x s1 :
  tree_read v s = Ok (x, s1) ↔ s1 = s ∧ tree s !! Z.to_nat (to_size_t v) = Some x.
Proof. unfold tree_read. destruct (tree s !! _); naive_solver. Qed.

Lemma tree_read_run v s x :
  0 ≤ v < SIZE_MOD → tree s !! Z.to_nat v = Some x → tree_read v s = Ok (x, s).
Proof. intros Hv Hx. apply tree_read_Ok. by rewrite to_size_t_small. Qed.

Lemma tree_write_Ok v x s u s1 :
  tree_write v x s = Ok (u, s1) ↔
  (Z.to_nat (to_size_t v) < length (tree s))%nat ∧
  s1 = SegmentTree (n s) (<[Z.to_nat (to_size_t v) := x]> (tree s)) (foo s).
Proof. unfold tree_write. destruct u, (decide _); naive_solver. Qed.

Lemma tree_write_run v x s :
  0 ≤ v < SIZE_MOD → v < Z.of_nat (length (tree s)) →
  tree_write v x s = Ok (tt, SegmentTree (n s) (<[Z.to_nat v := x]> (tree s)) (foo s)).
Proof.
  intros Hv Hlen. apply tree_write_Ok. rewrite to_size_t_small by done.
  split; [lia|done].
Qed.

Lemma call_foo_Ok a b s y s1 :
  call_foo a b s = Ok (y, s1) ↔ y = foo s a b ∧ s1 = s.
Proof. unfold call_foo. naive_solver. Qed.

Lemma vec_read_Ok {A : Type} (vec : list A) l s x s1 :
  @vec_read T A vec l s = Ok (x, s1) ↔ s1 = s ∧ vec !! Z.to_nat l = Some x.
Proof. unfold vec_read. destruct (vec !! _); unfold ret, crash; naive_solver. Qed.

(** *** Agreement of two objects on a set of slots *)

Lemma same_on_refl (P : Z → Prop) s : same_on P s s.
Proof. by repeat split. Qed.

Lemma same_on_sym (P : Z → Prop) s s' : same_on P s s' → same_on P s' s.
Proof. intros (? & ? & ? & H). repeat split; try done. intros. symmetry. by apply H. Qed.

Lemma same_on_trans (P : Z → Prop) s1 s2 s3 :
  same_on P s1 s2 → same_on P s2 s3 → same_on P s1 s3.
Proof.
  intros (? & ? & ? & H12) (? & ? & ? & H23).
  repeat split; try congruence. intros. rewrite H12 by done. by apply H23.
Qed.

Lemma same_on_mono (P Q : Z → Prop) s s' :
  (∀ w, 0 ≤ w → Q w → P w) → same_on P s s' → same_on Q s s'.
Proof. intros HQP (? & ? & ? & H). repeat split; try done. intros. apply H; auto. Qed.

Lemma same_on_write (P : Z → Prop) v x s u s1 :
  0 ≤ v < SIZE_MOD → ¬ P v → tree_write v x s = Ok (u, s1) → same_on P s s1.
Proof.
  intros Hv HP (Hlt & ->)%tree_write_Ok. rewrite to_size_t_small by done.
  repeat split; simpl; [by rewrite length_insert|].
  intros w Hw HPw. rewrite list_lookup_insert_ne; [done|].
  intros Heq. apply HP. by replace v with w by lia.
Qed.

End monad_lemmas.

(** ** Footprints: what a member function reads and writes *)

Section footprints.
Context {T : Type}.
Implicit Types (s : segment_tree T) (v w : Z) (P Q : Z → Prop).

Lemma eval_Ok {A : Type} (m : M T A) s a :
  eval m s = Ok a ↔ ∃ s1, m s = Ok (a, s1).
Proof.
  unfold eval, result_map, result_bind. destruct (m s) as [[a' s1]| |]; simpl.
  - split; [intros [= ->]; eauto | by intros [? [= -> _]]].
  - split; [done | by intros [? ?]].
  - split; [done | by intros [? ?]].
Qed.

Lemma exec_Ok {A : Type} (m : M T A) s s1 :
  exec m s = Ok s1 ↔ ∃ a, m s = Ok (a, s1).
Proof.
  unfold exec, result_map, result_bind. destruct (m s) as [[a' s2]| |]; simpl.
  - split; [intros [= ->]; eauto | by intros [? [= _ ->]]].
  - split; [done | by intros [? ?]].
  - split; [done | by intros [? ?]].
Qed.

(** A read-only member function is determined by its value. *)
Lemma readonly_run {A : Type} (m : M T A) s :
  readonly m → m s = result_map (λ a, (a, s)) (eval m s).
Proof.
  intros Hro. unfold eval, result_map, result_bind.
  destruct (m s) as [[a s1]| |] eqn:Hm; simpl; [|done..].
  by rewrite (Hro _ _ _ Hm).
Qed.

Lemma readonly_bind {A B : Type} (m : M T A) (k : A → M T B) :
  readonly m → (∀ a s, m s = Ok (a, s) → readonly (k a)) → readonly (bind m k).
Proof.
  intros Hm Hk s b s2 (a & s1 & H1 & H2)%bind_Ok.
  pose proof (Hm _ _ _ H1) as ->. eapply Hk; eauto.
Qed.

Lemma readonly_int_chk z : readonly (@int_chk T z).
Proof. by intros s a s1 (_ & -> & _)%int_chk_Ok. Qed.

Lemma readonly_left_child v : readonly (@left_child T v).
Proof. apply readonly_int_chk. Qed.

Lemma readonly_right_child v : readonly (@right_child T v).
Proof. by intros s a s1 (_ & -> & _)%right_child_Ok. Qed.

Lemma readonly_tree_read v : readonly (@tree_read T v).
Proof. by intros s a s1 (-> & _)%tree_read_Ok. Qed.

Lemma readonly_call_foo (a b : T) : readonly (call_foo a b).
Proof. by intros s y s1 (_ & ->)%call_foo_Ok. Qed.

(** The private [get] leaves the object as it found it. *)
Lemma readonly_get_rec fuel left right v l r :
  readonly (@get_rec T fuel left right v l r).
Proof.
  revert v l r. induction fuel as [|fuel IH]; intros v l r; simpl; [done|].
  repeat case_decide.
  - apply readonly_tree_read.
  - apply readonly_bind; [apply readonly_left_child | auto].
  - apply readonly_bind; [apply readonly_right_child | auto].
  - apply readonly_bind; [apply readonly_left_child | intros].
    apply readonly_bind; [apply IH | intros].
    apply readonly_bind; [apply readonly_right_child | intros].
    apply readonly_bind; [apply IH | intros].
    apply readonly_call_foo.
Qed.

(** The public [get] leaves the object as it found it. *)
Lemma readonly_get (T_of_int : int → T) left right :
  readonly (get T_of_int left right).
Proof.
  unfold get. apply readonly_bind.
  - by intros s a s1 [= _ ->].
  - intros cnt s _. case_decide; [apply readonly_get_rec | by intros ? ? ? [= _ ->]].
Qed.

(** *** Reading inside a set of slots *)

Lemma reads_only_mono P Q {A : Type} (m : M T A) :
  (∀ w, 0 ≤ w → P w → Q w) → reads_only P m → reads_only Q m.
Proof.
  intros HPQ [Hro Hsame]. split; [done|].
  intros s s' Hs. apply Hsame. by eapply same_on_mono.
Qed.

Lemma reads_only_bind P {A B : Type} (m : M T A) (k : A → M T B) :
  reads_only P m →
  (∀ a s, m s = Ok (a, s) → reads_only P (k a)) →
  reads_only P (bind m k).
Proof.
  intros [Hm Hsame] Hk. split.
  - apply readonly_bind; [done|]. intros a s Ha. by apply Hk in Ha as [? _].
  - intros s s' Hs. unfold eval at 1 2, bind.
    rewrite (readonly_run m s), (readonly_run m s') by done.
    rewrite (Hsame s s' Hs).
    destruct (eval m s') as [a| |] eqn:Hev; simpl; [|done..].
    apply eval_Ok in Hev as [s1 H1]. pose proof (Hm _ _ _ H1) as ->.
    destruct (Hk _ _ H1) as [_ Hka]. by apply Hka.
Qed.

Lemma reads_only_int_chk P z : reads_only P (@int_chk T z).
Proof.
  split; [apply readonly_int_chk|]. intros s s' _.
  unfold eval, int_chk. by case_decide.
Qed.

Lemma reads_only_left_child P v : reads_only P (@left_child T v).
Proof. apply reads_only_int_chk. Qed.

Lemma reads_only_right_child P v : reads_only P (@right_child T v).
Proof.
  apply reads_only_bind; [apply reads_only_int_chk|].
  intros. apply reads_only_int_chk.
Qed.

Lemma reads_only_tree_read P v : 0 ≤ v < SIZE_MOD → P v → reads_only P (@tree_read T v).
Proof.
  intros Hv HP. split; [apply readonly_tree_read|].
  intros s s' (_ & _ & _ & Hs). unfold eval, tree_read.
  rewrite to_size_t_small by done. rewrite (Hs v) by (done || lia).
  by destruct (tree s' !! _).
Qed.

Lemma reads_only_call_foo P (a b : T) : reads_only P (call_foo a b).
Proof.
  split; [apply readonly_call_foo|]. intros s s' (_ & Hfoo & _).
  unfold eval, call_foo. simpl. by rewrite Hfoo.
Qed.

(** The private [get] at slot [v] reads below [v] only. *)
Lemma reads_only_get_rec fuel left right v l r :
  0 < v → v ≤ INT_MAX →
  reads_only (desc v) (@get_rec T fuel left right v l r).
Proof.
  revert v l r. induction fuel as [|fuel IH]; intros v l r Hv Hmax; simpl.
  { split; [done|]. by intros. }
  assert (∀ lo hi, reads_only (desc v)
    (bind (@left_child T v) (λ vl, get_rec fuel left right vl lo hi))) as Hleft.
  { intros. apply reads_only_bind; [apply reads_only_left_child|].
    intros a s (-> & _ & ?)%left_child_Ok.
    eapply reads_only_mono; [|apply IH; lia].
    intros w _. apply desc_left. }
  assert (∀ lo hi, reads_only (desc v)
    (bind (@right_child T v) (λ vr, get_rec fuel left right vr lo hi))) as Hright.
  { intros. apply reads_only_bind; [apply reads_only_right_child|].
    intros a s (-> & _ & ? & ?)%right_child_Ok.
    eapply reads_only_mono; [|apply IH; lia].
    intros w _. apply desc_right. }
  repeat case_decide.
  - apply reads_only_tree_read; [mlia | apply desc_refl].
  - apply Hleft.
  - apply Hright.
  - apply reads_only_bind; [apply reads_only_left_child|].
    intros a s (-> & _ & ?)%left_child_Ok.
    apply reads_only_bind.
    { eapply reads_only_mono; [|apply IH; lia]. intros w _. apply desc_left. }
    intros x s0 _.
    apply reads_only_bind; [apply reads_only_right_child|].
    intros vr s1 (-> & _ & ? & ?)%right_child_Ok.
    apply reads_only_bind.
    { eapply reads_only_mono; [|apply IH; lia]. intros w _. apply desc_right. }
    intros. apply reads_only_call_foo.
Qed.

End footprints.

Section writes.
Context {T : Type}.
Implicit Types (s : segment_tree T) (v w : Z) (P Q : Z → Prop).

Lemma writes_only_mono P Q {A : Type} (m : M T A) :
  (∀ w, 0 ≤ w → P w → Q w) → writes_only P m → writes_only Q m.
Proof.
  intros HPQ Hm s a s1 Hrun. eapply same_on_mono; [|by eapply Hm].
  intros w Hw HQ HP. by apply HQ, HPQ.
Qed.

Lemma writes_only_readonly P {A : Type} (m : M T A) : readonly m → writes_only P m.
Proof. intros Hm s a s1 Hrun. rewrite (Hm _ _ _ Hrun). apply same_on_refl. Qed.

Lemma writes_only_bind P {A B : Type} (m : M T A) (k : A → M T B) :
  writes_only P m →
  (∀ a s s1, m s = Ok (a, s1) → writes_only P (k a)) →
  writes_only P (bind m k).
Proof.
  intros Hm Hk s b s2 (a & s1 & H1 & H2)%bind_Ok.
  eapply same_on_trans; [by eapply Hm|]. eapply Hk; eauto.
Qed.

Lemma writes_only_tree_write P v (x : T) :
  0 ≤ v < SIZE_MOD → P v → writes_only P (tree_write v x).
Proof. intros Hv HP s u s1 Hrun. eapply same_on_write; eauto. Qed.

(** What the final assignment of an internal slot does. *)
Lemma pull_up_Ok v s u s1 :
  0 < v → v ≤ INT_MAX →
  pull_up v s = Ok (u, s1) ↔
  ∃ a b, 2 * v + 1 ≤ INT_MAX ∧
    tree s !! Z.to_nat (2 * v) = Some a ∧
    tree s !! Z.to_nat (2 * v + 1) = Some b ∧
    v < Z.of_nat (length (tree s)) ∧
    s1 = SegmentTree (n s) (<[Z.to_nat v := foo s a b]> (tree s)) (foo s).
Proof.
  intros Hv Hmax. unfold pull_up. split.
  - intros (vl & s' & (-> & -> & ?)%left_child_Ok & H1)%bind_Ok.
    apply bind_Ok in H1 as (a & s' & (-> & Ha)%tree_read_Ok & H2).
    apply bind_Ok in H2 as (vr & s' & (-> & -> & ? & ?)%right_child_Ok & H3).
    apply bind_Ok in H3 as (b & s' & (-> & Hb)%tree_read_Ok & H4).
    apply bind_Ok in H4 as (y & s' & (-> & ->)%call_foo_Ok & H5).
    apply tree_write_Ok in H5 as [Hlt ->].
    rewrite to_size_t_small in Ha by mlia.
    rewrite to_size_t_small in Hb by mlia.
    rewrite to_size_t_small in Hlt by mlia.
    rewrite to_size_t_small by mlia.
    exists a, b. repeat split; try done; mlia.
  - intros (a & b & ? & Ha & Hb & Hlen & ->).
    rewrite (bind_run _ _ s (2 * v) s) by (apply left_child_run; mlia).
    rewrite (bind_run _ _ s a s) by (apply tree_read_run; [mlia | done]).
    rewrite (bind_run _ _ s (2 * v + 1) s) by (apply right_child_run; mlia).
    rewrite (bind_run _ _ s b s) by (apply tree_read_run; [mlia | done]).
    rewrite (bind_run _ _ s (foo s a b) s) by done.
    destruct u. apply tree_write_run; [mlia | done].
Qed.

Lemma writes_only_pull_up v :
  0 < v → v ≤ INT_MAX → writes_only (λ w, w = v) (@pull_up T v).
Proof.
  intros Hv Hmax s u s1 (a & b & _ & _ & _ & Hlen & ->)%pull_up_Ok; [|done..].
  repeat split; simpl; [by rewrite length_insert|].
  intros w Hw Hne. rewrite list_lookup_insert_ne; [done|]. lia.
Qed.

(** [update] at slot [v] writes below [v] only. *)
Lemma writes_only_update fuel idx (val : T) v l r :
  0 < v → v ≤ INT_MAX → writes_only (desc v) (update fuel idx val v l r).
Proof.
  revert v l r. induction fuel as [|fuel IH]; intros v l r Hv Hmax; simpl; [done|].
  case_decide.
  { apply writes_only_tree_write; [mlia | apply desc_refl]. }
  apply writes_only_bind.
  - case_decide.
    + apply writes_only_bind; [apply writes_only_readonly, readonly_left_child|].
      intros a s s1 (-> & _ & ?)%left_child_Ok.
      eapply writes_only_mono; [|apply IH; lia]. intros w _. apply desc_left.
    + apply writes_only_bind; [apply writes_only_readonly, readonly_right_child|].
      intros a s s1 (-> & _ & ? & ?)%right_child_Ok.
      eapply writes_only_mono; [|apply IH; lia]. intros w _. apply desc_right.
  - intros _ _ _ _. eapply writes_only_mono; [|by apply writes_only_pull_up].
    intros w _ ->. apply desc_refl.
Qed.

(** [build] at slot [v] writes below [v] only. *)
Lemma writes_only_build (T_of_int : int → T) fuel vec v l r :
  0 < v → v ≤ INT_MAX → writes_only (desc v) (build T_of_int fuel vec v l r).
Proof.
  revert v l r. induction fuel as [|fuel IH]; intros v l r Hv Hmax; simpl; [done|].
  case_decide.
  { apply writes_only_bind.
    - apply writes_only_readonly. by intros s a s1 (-> & _)%vec_read_Ok.
    - intros. apply writes_only_tree_write; [mlia | apply desc_refl]. }
  apply writes_only_bind; [apply writes_only_readonly, readonly_left_child|].
  intros a s s1 (-> & _ & ?)%left_child_Ok.
  apply writes_only_bind.
  { eapply writes_only_mono; [|apply IH; lia]. intros w _. apply desc_left. }
  intros _ _ _ _.
  apply writes_only_bind; [apply writes_only_readonly, readonly_right_child|].
  intros a s' s1' (-> & _ & ? & ?)%right_child_Ok.
  apply writes_only_bind.
  { eapply writes_only_mono; [|apply IH; lia]. intros w _. apply desc_right. }
  intros _ _ _ _. eapply writes_only_mono; [|by apply writes_only_pull_up].
  intros w _ ->. apply desc_refl.
Qed.

End writes.

(** ** The recursion stays inside the storage and returns *)

Lemma alloc_inv (len : Z) (h : nat) (v l r : Z) :
  alloc len h v l r →
  0 < v ∧ v ≤ INT_MAX ∧ v < len ∧ 0 ≤ l ∧ l ≤ r ∧ r < HALF.
Proof. destruct 1; repeat split; mlia. Qed.

Lemma alloc_mono (len : Z) (h h' : nat) (v l r : Z) :
  alloc len h v l r → (h ≤ h')%nat → alloc len h' v l r.
Proof.
  intros Ha. revert h'. induction Ha as [|h v l r ? ? ? ? ? ? _ IHl _ IHr]; intros h' Hh.
  - by constructor.
  - destruct h' as [|h']; [lia|]. constructor; try done; [apply IHl | apply IHr]; lia.
Qed.

(** A range of at most [2^k] positions at a slot [v] with
    [(v + 1) * 2^k] inside the storage and inside [int]: the recursion
    is [k] deep and never leaves either. *)
Lemma alloc_of_bounds (len : Z) (k : nat) (v l r : Z) :
  0 < v → 0 ≤ l → l ≤ r → r < HALF →
  r - l < 2 ^ Z.of_nat k →
  (v + 1) * 2 ^ Z.of_nat k ≤ len →
  (v + 1) * 2 ^ Z.of_nat k ≤ INT_MAX + 1 →
  alloc len k v l r.
Proof.
  revert v l r. induction k as [|k IH]; intros v l r Hv Hl Hlr Hr Hsize Hlen Hint.
  - simpl in *. replace r with l by lia. constructor; mlia.
  - rewrite pow2_succ in *. pose proof (pow2_pos k) as Hp.
    set (p := 2 ^ Z.of_nat k) in *.
    destruct (decide (l = r)) as [->|Hne].
    + constructor; machine; nia.
    + constructor; try (machine; nia).
      * apply IH; try (machine; nia); fold p; lia.
      * apply IH; try (machine; nia); fold p; lia.
Qed.

Section total.
Context {T : Type}.
Implicit Types (s : segment_tree T) (v w : Z).

Lemma same_on_length (P : Z → Prop) s s' :
  same_on P s s' → length (tree s) = length (tree s').
Proof. by intros (_ & _ & ? & _). Qed.

Lemma lookup_slot s v :
  0 ≤ v → v < Z.of_nat (length (tree s)) → ∃ x, tree s !! Z.to_nat v = Some x.
Proof. intros. apply lookup_lt_is_Some. lia. Qed.

(** The final assignment of an internal slot returns when the slot and
    its two children are inside the storage. *)
Lemma pull_up_total v s :
  0 < v → 2 * v + 1 ≤ INT_MAX → 2 * v + 1 < Z.of_nat (length (tree s)) →
  ∃ s1, pull_up v s = Ok (tt, s1).
Proof.
  intros Hv Hmax Hlen.
  destruct (lookup_slot s (2 * v)) as [a Ha]; [lia..|].
  destruct (lookup_slot s (2 * v + 1)) as [b Hb]; [lia..|].
  assert (v ≤ INT_MAX) as Hmax' by mlia.
  eexists. apply (pull_up_Ok v s tt _ Hv Hmax').
  exists a, b. repeat split; try done; mlia.
Qed.

Lemma update_total len h v l r :
  alloc len h v l r →
  ∀ fuel idx (val : T) s,
    Z.of_nat (length (tree s)) = len → (h < fuel)%nat →
    ∃ s1, update fuel idx val v l r s = Ok (tt, s1).
Proof.
  induction 1 as [h v l Hv Hmax Hlen Hl Hhalf
                 |h v l r Hv Hmax Hlen Hl Hlr Hr Hleft IHl Hright IHr];
    intros fuel idx val s Hs Hfuel; (destruct fuel as [|fuel]; [lia|]); simpl.
  - rewrite decide_True by done. eexists. apply tree_write_run; mlia.
  - rewrite decide_False by lia.
    rewrite mid_eq, mid_succ_eq by lia.
    assert (∃ s0, (if decide (idx ≤ (l + r) / 2)
        then bind (left_child v) (λ vl, update fuel idx val vl l ((l + r) / 2))
        else bind (right_child v)
               (λ vr, update fuel idx val vr ((l + r) / 2 + 1) r)) s = Ok (tt, s0)
      ∧ length (tree s0) = length (tree s)) as (s0 & Hrun & Hlen0).
    { case_decide.
      - destruct (IHl fuel idx val s) as [s0 Hs0]; [done|lia|].
        exists s0. rewrite (bind_run _ _ s (2 * v) s) by (apply left_child_run; mlia).
        split; [done|]. symmetry. eapply same_on_length.
        eapply writes_only_update; [| |exact Hs0]; mlia.
      - destruct (IHr fuel idx val s) as [s0 Hs0]; [done|lia|].
        exists s0. rewrite (bind_run _ _ s (2 * v + 1) s) by (apply right_child_run; mlia).
        split; [done|]. symmetry. eapply same_on_length.
        eapply writes_only_update; [| |exact Hs0]; mlia. }
    rewrite (bind_run _ _ _ _ _ Hrun).
    apply pull_up_total; [done..|].
    apply alloc_inv in Hright. rewrite Hlen0. lia.
Qed.

Lemma get_rec_total len h v l r :
  alloc len h v l r →
  ∀ fuel left right s,
    Z.of_nat (length (tree s)) = len → (h < fuel)%nat →
    left ≤ right → left ≤ r → l ≤ right →
    ∃ x, get_rec fuel left right v l r s = Ok (x, s).
Proof.
  induction 1 as [h v l Hv Hmax Hlen Hl Hhalf
                 |h v l r Hv Hmax Hlen Hl Hlr Hr Hleft IHl Hright IHr];
    intros fuel left right s Hs Hfuel Hq Hqr Hql;
    (destruct fuel as [|fuel]; [lia|]); simpl.
  - rewrite decide_True by lia.
    destruct (lookup_slot s v) as [x Hx]; [lia..|].
    exists x. apply tree_read_run; [mlia|done].
  - case_decide.
    { destruct (lookup_slot s v) as [x Hx]; [lia..|].
      exists x. apply tree_read_run; [mlia|done]. }
    rewrite mid_eq, mid_succ_eq by lia.
    repeat case_decide.
    + rewrite (bind_run _ _ s (2 * v) s) by (apply left_child_run; mlia).
      apply IHl; lia.
    + rewrite (bind_run _ _ s (2 * v + 1) s) by (apply right_child_run; mlia).
      apply IHr; lia.
    + destruct (IHl fuel left right s) as [a Ha]; [done|lia..|].
      destruct (IHr fuel left right s) as [b Hb]; [done|lia..|].
      rewrite (bind_run _ _ s (2 * v) s) by (apply left_child_run; mlia).
      rewrite (bind_run _ _ _ _ _ Ha).
      rewrite (bind_run _ _ s (2 * v + 1) s) by (apply right_child_run; mlia).
      rewrite (bind_run _ _ _ _ _ Hb).
      by eexists.
Qed.

Lemma build_total (T_of_int : int → T) len h v l r :
  alloc len h v l r →
  ∀ fuel (vec : list int) s,
    Z.of_nat (length (tree s)) = len → (h < fuel)%nat →
    r < Z.of_nat (length vec) →
    ∃ s1, build T_of_int fuel vec v l r s = Ok (tt, s1).
Proof.
  induction 1 as [h v l Hv Hmax Hlen Hl Hhalf
                 |h v l r Hv Hmax Hlen Hl Hlr Hr Hleft IHl Hright IHr];
    intros fuel vec s Hs Hfuel Hvec; (destruct fuel as [|fuel]; [lia|]); simpl.
  - rewrite decide_True by done.
    destruct (lookup_lt_is_Some_2 vec (Z.to_nat l)) as [x Hx]; [lia|].
    rewrite (bind_run _ _ s x s) by (by apply vec_read_Ok).
    eexists. apply tree_write_run; mlia.
  - rewrite decide_False by lia.
    rewrite mid_eq, mid_succ_eq by lia.
    rewrite (bind_run _ _ s (2 * v) s) by (apply left_child_run; mlia).
    destruct (IHl fuel vec s) as [s1 Hs1]; [done|lia..|].
    rewrite (bind_run _ _ _ _ _ Hs1).
    assert (length (tree s1) = length (tree s)) as Hlen1.
    { symmetry. eapply same_on_length.
      eapply (writes_only_build T_of_int); [| |exact Hs1]; mlia. }
    rewrite (bind_run _ _ s1 (2 * v + 1) s1) by (apply right_child_run; mlia).
    destruct (IHr fuel vec s1) as [s2 Hs2]; [lia|lia..|].
    rewrite (bind_run _ _ _ _ _ Hs2).
    assert (length (tree s2) = length (tree s1)) as Hlen2.
    { symmetry. eapply same_on_length.
      eapply (writes_only_build T_of_int); [| |exact Hs2]; mlia. }
    apply pull_up_total; [done..|].
    apply alloc_inv in Hright. rewrite Hlen2, Hlen1. lia.
Qed.

End total.

(** ** Folding a range of values *)

Section folds.
Context {T : Type}.
Implicit Types (f : T → T → T) (vals xs ys : list T).

Lemma foldl_assoc f `{!Assoc (=) f} a y ys :
  foldl f (f a y) ys = f a (foldl f y ys).
Proof.
  revert y. induction ys as [|z ys IH]; intros y; simpl; [done|].
  by rewrite <-IH, (assoc f).
Qed.

Lemma fold1_app f `{!Assoc (=) f} xs ys a b :
  fold1 f xs = Some a → fold1 f ys = Some b → fold1 f (xs ++ ys) = Some (f a b).
Proof.
  destruct xs as [|x xs], ys as [|y ys]; simpl; try done.
  intros [= <-] [= <-]. f_equal.
  rewrite foldl_app. simpl. by apply foldl_assoc.
Qed.

Lemma range_single vals a x :
  0 ≤ a → vals !! Z.to_nat a = Some x → range vals a a = [x].
Proof.
  intros Ha Hx. unfold range. replace (Z.to_nat (a - a + 1)) with 1%nat by lia.
  by rewrite (drop_S _ _ _ Hx).
Qed.

Lemma range_split vals a m b :
  0 ≤ a → a ≤ m → m ≤ b →
  range vals a b = range vals a m ++ range vals (m + 1) b.
Proof.
  intros. unfold range.
  replace (Z.to_nat (b - a + 1))
    with (Z.to_nat (m - a + 1) + Z.to_nat (b - (m + 1) + 1))%nat by lia.
  rewrite <-take_take_drop, drop_drop. do 3 f_equal. lia.
Qed.

Lemma range_fold_single f vals a x :
  0 ≤ a → vals !! Z.to_nat a = Some x → range_fold f vals a a = Some x.
Proof. intros. unfold range_fold. by erewrite range_single. Qed.

Lemma range_fold_split f `{!Assoc (=) f} vals a m b x y :
  0 ≤ a → a ≤ m → m ≤ b →
  range_fold f vals a m = Some x →
  range_fold f vals (m + 1) b = Some y →
  range_fold f vals a b = Some (f x y).
Proof.
  intros. unfold range_fold. rewrite (range_split vals a m b) by done.
  by apply fold1_app.
Qed.

End folds.

(** ** The stored values *)

Section values.
Context {T : Type}.
Implicit Types (s : segment_tree T) (v w : Z) (vals : list T).

Lemma desc_child_left v : desc v (2 * v).
Proof. apply desc_left, desc_refl. Qed.

Lemma desc_child_right v : desc v (2 * v + 1).
Proof. apply desc_right, desc_refl. Qed.

Lemma shaped_inv s vals v l r : shaped s vals v l r → 0 < v ∧ 0 ≤ l ∧ l ≤ r.
Proof. destruct 1; lia. Qed.

(** The shape of a subtree depends on the slots below its root and on
    the values of its range only. *)
Lemma shaped_same_on s s' vals vals' v l r :
  shaped s vals v l r →
  same_on (desc v) s s' →
  (∀ i, l ≤ i → i ≤ r → vals' !! Z.to_nat i = vals !! Z.to_nat i) →
  shaped s' vals' v l r.
Proof.
  intros Hsh. revert s' vals'.
  induction Hsh as [v l x Hv Hl Hx Hval
                   |v l r a b Hv Hl Hlr _ IHl _ IHr Ha Hb Hab];
    intros s' vals' Hsame Hvals.
  - destruct Hsame as (_ & _ & _ & Hsame).
    apply shaped_leaf with x; try done.
    + rewrite <-Hsame; [done|lia|apply desc_refl].
    + rewrite Hvals; [done|lia..].
  - pose proof Hsame as (_ & Hfoo & _ & Hslots).
    apply shaped_node with a b; try done.
    + apply IHl.
      * eapply same_on_mono; [|done]. intros w _. apply desc_left.
      * intros. apply Hvals; lia.
    + apply IHr.
      * eapply same_on_mono; [|done]. intros w _. apply desc_right.
      * intros. apply Hvals; lia.
    + rewrite <-Hslots; [done|lia|apply desc_child_left].
    + rewrite <-Hslots; [done|lia|apply desc_child_right].
    + rewrite <-Hslots, <-Hfoo; [done|lia|apply desc_refl].
Qed.

(** The root of a subtree holds the fold of its range. *)
Lemma shaped_value s vals v l r :
  Assoc (=) (foo s) →
  shaped s vals v l r →
  ∃ x, tree s !! Z.to_nat v = Some x ∧ range_fold (foo s) vals l r = Some x.
Proof.
  intros Hassoc.
  induction 1 as [v l x Hv Hl Hx Hval
                 |v l r a b Hv Hl Hlr _ IHl _ IHr Ha Hb Hab].
  - exists x. split; [done|]. by apply range_fold_single.
  - destruct IHl as (a' & Ha' & Hfa), IHr as (b' & Hb' & Hfb).
    assert (a' = a) as -> by congruence. assert (b' = b) as -> by congruence.
    exists (foo s a b). split; [done|].
    apply range_fold_split with ((l + r) / 2); try done; lia.
Qed.

(** Two shaped children and the final assignment make a shaped parent. *)
Lemma shaped_pull_up s vals v l r u s1 :
  0 < v → v ≤ INT_MAX → 0 ≤ l → l < r →
  shaped s vals (2 * v) l ((l + r) / 2) →
  shaped s vals (2 * v + 1) ((l + r) / 2 + 1) r →
  pull_up v s = Ok (u, s1) →
  shaped s1 vals v l r.
Proof.
  intros Hv Hmax Hl Hlr Hleft Hright Hrun.
  pose proof (writes_only_pull_up v Hv Hmax _ _ _ Hrun) as Hsame.
  apply pull_up_Ok in Hrun as (a & b & ? & Ha & Hb & Hlen & ->); [|done..].
  apply shaped_node with a b; try done.
  - eapply shaped_same_on; [exact Hleft| |done].
    eapply same_on_mono; [|exact Hsame]. intros w _. by apply desc_left_ne.
  - eapply shaped_same_on; [exact Hright| |done].
    eapply same_on_mono; [|exact Hsame]. intros w _. by apply desc_right_ne.
  - simpl. rewrite list_lookup_insert_ne by lia. done.
  - simpl. rewrite list_lookup_insert_ne by lia. done.
  - simpl. apply list_lookup_insert_eq. lia.
Qed.

(** [build] stores the values of the vector. *)
Lemma build_shaped (T_of_int : int → T) fuel vec v l r s s1 :
  0 < v → v ≤ INT_MAX → 0 ≤ l → l ≤ r → r < HALF →
  build T_of_int fuel vec v l r s = Ok (tt, s1) →
  shaped s1 (T_of_int <$> vec) v l r.
Proof.
  revert v l r s s1.
  induction fuel as [|fuel IH]; intros v l r s s1 Hv Hmax Hl Hlr Hr; simpl; [done|].
  case_decide as Heq.
  - subst r. intros (x & s' & (-> & Hx)%vec_read_Ok & (Hlt & ->)%tree_write_Ok)%bind_Ok.
    rewrite to_size_t_small in * by mlia.
    apply shaped_leaf with (T_of_int x); try done.
    + simpl. by apply list_lookup_insert_eq.
    + by rewrite list_lookup_fmap, Hx.
  - rewrite mid_eq, mid_succ_eq by lia.
    intros (vl & s' & (-> & -> & ?)%left_child_Ok & H1)%bind_Ok.
    apply bind_Ok in H1 as ([] & s2 & Hbl & H2).
    apply bind_Ok in H2 as (vr & s' & (-> & -> & ? & ?)%right_child_Ok & H3).
    apply bind_Ok in H3 as ([] & s3 & Hbr & Hpull).
    eapply shaped_pull_up; [done|done|done|lia| | |exact Hpull].
    + eapply shaped_same_on; [eapply (IH _ _ _ _ _ _ _ _ _ _ Hbl)| |done].
      eapply same_on_mono; [|eapply (writes_only_build T_of_int); [| |exact Hbr]; mlia].
      intros w _ Hd Hd'. by eapply (desc_disjoint v w).
    + eapply (IH _ _ _ _ _ _ _ _ _ _ Hbr).
      Unshelve. all: mlia.
Qed.

(** [update] stores the new value in place of the old one. *)
Lemma update_shaped fuel idx (val : T) v l r s s1 vals :
  v ≤ INT_MAX → r < HALF →
  shaped s vals v l r → l ≤ idx → idx ≤ r →
  update fuel idx val v l r s = Ok (tt, s1) →
  shaped s1 (<[Z.to_nat idx := val]> vals) v l r.
Proof.
  revert v l r s s1.
  induction fuel as [|fuel IH]; intros v l r s s1 Hmax Hr Hsh Hli Hir; simpl; [done|].
  pose proof (shaped_inv _ _ _ _ _ Hsh) as (Hv & Hl & Hlr).
  case_decide as Heq.
  - subst r. assert (idx = l) as -> by lia.
    intros (Hlt & ->)%tree_write_Ok. rewrite to_size_t_small in * by mlia.
    inversion Hsh as [? ? x _ _ Hx Hval|]; [|lia]; subst.
    apply shaped_leaf with val; try done.
    + simpl. by apply list_lookup_insert_eq.
    + apply list_lookup_insert_eq. by eapply lookup_lt_Some.
  - rewrite mid_eq, mid_succ_eq by lia.
    inversion Hsh as [|? ? ? a b _ _ _ Hleft Hright Ha Hb Hab]; [lia|]; subst.
    intros ([] & s2 & Hchild & Hpull)%bind_Ok.
    eapply shaped_pull_up; [done|done|done|lia| | |exact Hpull].
    + case_decide as Hside.
      * apply bind_Ok in Hchild as (vl & s' & (-> & -> & ?)%left_child_Ok & Hup).
        eapply IH; [| |exact Hleft| | |exact Hup]; mlia.
      * apply bind_Ok in Hchild as (vr & s' & (-> & -> & ? & ?)%right_child_Ok & Hup).
        eapply shaped_same_on; [exact Hleft| |].
        -- eapply same_on_mono; [|eapply writes_only_update; [| |exact Hup]; mlia].
           intros w _ Hd Hd'. by eapply (desc_disjoint v w).
        -- intros i ? ?. apply list_lookup_insert_ne. lia.
    + case_decide as Hside.
      * apply bind_Ok in Hchild as (vl & s' & (-> & -> & ?)%left_child_Ok & Hup).
        eapply shaped_same_on; [exact Hright| |].
        -- eapply same_on_mono; [|eapply writes_only_update; [| |exact Hup]; mlia].
           intros w _ Hd Hd'. by eapply (desc_disjoint v w).
        -- intros i ? ?. apply list_lookup_insert_ne. lia.
      * apply bind_Ok in Hchild as (vr & s' & (-> & -> & ? & ?)%right_child_Ok & Hup).
        eapply IH; [| |exact Hright| | |exact Hup]; mlia.
Qed.

End values.

(** ** What a query returns *)

Section queries.
Context {T : Type}.
Implicit Types (s : segment_tree T) (v w : Z) (vals : list T).

(** On a shaped subtree the private [get] returns the fold of the part
    of the queried range that the subtree covers. *)
Lemma get_rec_shaped fuel left right v l r s x s1 vals :
  Assoc (=) (foo s) →
  shaped s vals v l r → v ≤ INT_MAX → r < HALF →
  left ≤ right → left ≤ r → l ≤ right →
  get_rec fuel left right v l r s = Ok (x, s1) →
  range_fold (foo s) vals (Z.max l left) (Z.min r right) = Some x.
Proof.
  intros Hassoc. revert v l r x s1.
  induction fuel as [|fuel IH]; intros v l r x s1 Hsh Hmax Hr Hq Hqr Hql; simpl; [done|].
  pose proof (shaped_inv _ _ _ _ _ Hsh) as (Hv & Hl & Hlr).
  case_decide as Hcov.
  { intros (-> & Hx)%tree_read_Ok. rewrite to_size_t_small in Hx by mlia.
    destruct (shaped_value _ _ _ _ _ Hassoc Hsh) as (x' & Hx' & Hfold).
    replace (Z.max l left) with l by lia. replace (Z.min r right) with r by lia.
    congruence. }
  inversion Hsh as [|? ? ? a b _ _ _ Hleft Hright Ha Hb Hab]; [lia|]; subst.
  rewrite mid_eq, mid_succ_eq by lia.
  repeat case_decide.
  - intros (vl & s' & (-> & -> & ?)%left_child_Ok & Hget)%bind_Ok.
    replace (Z.min r right) with (Z.min ((l + r) / 2) right) by lia.
    eapply IH; [exact Hleft| | | | | |exact Hget]; mlia.
  - intros (vr & s' & (-> & -> & ? & ?)%right_child_Ok & Hget)%bind_Ok.
    replace (Z.max l left) with (Z.max ((l + r) / 2 + 1) left) by lia.
    eapply IH; [exact Hright| | | | | |exact Hget]; mlia.
  - intros (vl & s' & (-> & -> & ?)%left_child_Ok & Hk1)%bind_Ok.
    apply bind_Ok in Hk1 as (xa & s2 & Hga & Hk2).
    pose proof (readonly_get_rec _ _ _ _ _ _ _ _ _ Hga) as ->.
    apply bind_Ok in Hk2 as (vr & s' & (-> & -> & ? & ?)%right_child_Ok & Hk3).
    apply bind_Ok in Hk3 as (xb & s3 & Hgb & (-> & ->)%call_foo_Ok).
    pose proof (readonly_get_rec _ _ _ _ _ _ _ _ _ Hgb) as ->.
    assert (range_fold (foo s) vals (Z.max l left) (Z.min ((l + r) / 2) right)
            = Some xa) as Hfa
      by (eapply IH; [exact Hleft| | | | | |exact Hga]; mlia).
    assert (range_fold (foo s) vals (Z.max ((l + r) / 2 + 1) left) (Z.min r right)
            = Some xb) as Hfb
      by (eapply IH; [exact Hright| | | | | |exact Hgb]; mlia).
    replace (Z.min ((l + r) / 2) right) with ((l + r) / 2) in Hfa by lia.
    replace (Z.max ((l + r) / 2 + 1) left) with ((l + r) / 2 + 1) in Hfb by lia.
    apply range_fold_split with ((l + r) / 2); try done; lia.
Qed.

End queries.

(** ** A query after an update *)

Section update_then_get.
Context {T : Type}.
Implicit Types (s : segment_tree T) (v w : Z).

Lemma eval_bind_run {A B : Type} (m : M T A) (k : A → M T B) s a s1 :
  m s = Ok (a, s1) → eval (bind m k) s = eval (k a) s1.
Proof. intros Hm. unfold eval. by rewrite (bind_run _ _ _ _ _ Hm). Qed.

Lemma eval_bind_congr {A B : Type} (m : M T A) (k : A → M T B) s s' :
  readonly m →
  eval m s = eval m s' →
  (∀ a, m s' = Ok (a, s') → eval (k a) s = eval (k a) s') →
  eval (bind m k) s = eval (bind m k) s'.
Proof.
  intros Hro Hm Hk. unfold eval at 1 2, bind.
  rewrite (readonly_run m s), (readonly_run m s') by done. rewrite Hm.
  destruct (eval m s') as [a| |] eqn:Hev; simpl; [|done..].
  apply eval_Ok in Hev as [s1 H1]. pose proof (Hro _ _ _ H1) as ->.
  by apply Hk.
Qed.

Lemma eval_left_child v s s' : eval (left_child v) s = eval (left_child v) s'.
Proof. unfold eval, left_child, int_chk. by case_decide. Qed.

Lemma eval_right_child v s s' : eval (right_child v) s = eval (right_child v) s'.
Proof.
  unfold eval, right_child, bind, int_chk.
  case_decide; [|done]. unfold ret. by case_decide.
Qed.

(** Away from a covered slot, the private [get] on two objects with the
    same combiner agrees as soon as it agrees on the two children. *)
Lemma get_rec_congr fg left right v l r s1 s :
  0 ≤ l → l ≤ r → r < HALF →
  foo s1 = foo s →
  ¬ (left ≤ l ∧ r ≤ right) →
  (INT_MIN ≤ 2 * v ≤ INT_MAX →
   eval (get_rec fg left right (2 * v) l ((l + r) / 2)) s1
   = eval (get_rec fg left right (2 * v) l ((l + r) / 2)) s) →
  (INT_MIN ≤ 2 * v → 2 * v + 1 ≤ INT_MAX →
   eval (get_rec fg left right (2 * v + 1) ((l + r) / 2 + 1) r) s1
   = eval (get_rec fg left right (2 * v + 1) ((l + r) / 2 + 1) r) s) →
  eval (get_rec (S fg) left right v l r) s1
  = eval (get_rec (S fg) left right v l r) s.
Proof.
  intros Hl Hlr Hr Hfoo Hcov HA HB. simpl.
  rewrite decide_False by done. rewrite mid_eq, mid_succ_eq by lia.
  repeat case_decide.
  - apply eval_bind_congr; [apply readonly_left_child|apply eval_left_child|].
    intros a (-> & _ & ?)%left_child_Ok. by apply HA.
  - apply eval_bind_congr; [apply readonly_right_child|apply eval_right_child|].
    intros a (-> & _ & ? & ?)%right_child_Ok. by apply HB.
  - apply eval_bind_congr; [apply readonly_left_child|apply eval_left_child|].
    intros vl (-> & _ & ?)%left_child_Ok.
    apply eval_bind_congr; [apply readonly_get_rec|by apply HA|].
    intros a _.
    apply eval_bind_congr; [apply readonly_right_child|apply eval_right_child|].
    intros vr (-> & _ & ? & ?)%right_child_Ok.
    apply eval_bind_congr; [apply readonly_get_rec|by apply HB|].
    intros b _. unfold eval, call_foo. simpl. by rewrite Hfoo.
Qed.

(** A query that leaves out the updated position returns what it
    returned before the update. *)
Lemma update_get_other fu idx (val : T) left right v l r s s1 :
  0 < v → v ≤ INT_MAX → 0 ≤ l → l ≤ idx → idx ≤ r → r < HALF →
  ¬ (left ≤ idx ∧ idx ≤ right) →
  update fu idx val v l r s = Ok (tt, s1) →
  ∀ fg, eval (get_rec fg left right v l r) s1
        = eval (get_rec fg left right v l r) s.
Proof.
  revert v l r s s1.
  induction fu as [|fu IH]; intros v l r s s1 Hv Hmax Hl Hli Hir Hr Hout Hup fg;
    [done|].
  destruct fg as [|fg]; [done|].
  pose proof (writes_only_update _ _ _ _ _ _ Hv Hmax _ _ _ Hup) as (_ & Hfoo & _).
  simpl in Hup. case_decide as Heq.
  - (* the leaf of [idx] *)
    subst r. assert (idx = l) as -> by lia.
    assert (same_on (λ w, w ≠ v) s1 s) as Hs.
    { apply same_on_sym. eapply same_on_write; [| |exact Hup]; [mlia|]. by intros []. }
    apply get_rec_congr; try done; try lia.
    + intros ?. eapply reads_only_get_rec; [mlia..|].
      eapply same_on_mono; [|exact Hs]. intros w _. by apply desc_left_ne.
    + intros ? ?. eapply reads_only_get_rec; [mlia..|].
      eapply same_on_mono; [|exact Hs]. intros w _. by apply desc_right_ne.
  - rewrite mid_eq, mid_succ_eq in Hup by lia.
    apply bind_Ok in Hup as ([] & s' & Hchild & Hpull).
    assert (same_on (λ w, w ≠ v) s1 s') as Hs.
    { apply same_on_sym. eapply same_on_mono; [|by eapply writes_only_pull_up].
      intros w _ Hne. by intros ?. }
    apply get_rec_congr; try done; try lia.
    + intros ?.
      transitivity (eval (get_rec fg left right (2 * v) l ((l + r) / 2)) s').
      { eapply reads_only_get_rec; [mlia..|].
        eapply same_on_mono; [|exact Hs]. intros w _. by apply desc_left_ne. }
      case_decide as Hside.
      * apply bind_Ok in Hchild as (vl & s0 & (-> & -> & ?)%left_child_Ok & Hup).
        eapply IH; [| | | | | | |exact Hup]; mlia.
      * apply bind_Ok in Hchild as (vr & s0 & (-> & -> & ? & ?)%right_child_Ok & Hup).
        eapply reads_only_get_rec; [mlia..|]. apply same_on_sym.
        eapply same_on_mono; [|eapply writes_only_update; [| |exact Hup]; mlia].
        intros w _ Hd Hd'. by eapply (desc_disjoint v w).
    + intros ? ?.
      transitivity (eval (get_rec fg left right (2 * v + 1) ((l + r) / 2 + 1) r) s').
      { eapply reads_only_get_rec; [mlia..|].
        eapply same_on_mono; [|exact Hs]. intros w _. by apply desc_right_ne. }
      case_decide as Hside.
      * apply bind_Ok in Hchild as (vl & s0 & (-> & -> & ?)%left_child_Ok & Hup).
        eapply reads_only_get_rec; [mlia..|]. apply same_on_sym.
        eapply same_on_mono; [|eapply writes_only_update; [| |exact Hup]; mlia].
        intros w _ Hd Hd'. by eapply (desc_disjoint v w).
      * apply bind_Ok in Hchild as (vr & s0 & (-> & -> & ? & ?)%right_child_Ok & Hup).
        eapply IH; [| | | | | | |exact Hup]; mlia.
Qed.

(** The query of the updated position alone returns the new value. *)
Lemma update_get_same fu idx (val : T) v l r s s1 :
  0 < v → v ≤ INT_MAX → 0 ≤ l → l ≤ idx → idx ≤ r → r < HALF →
  update fu idx val v l r s = Ok (tt, s1) →
  ∀ s2, same_on (desc v) s1 s2 →
        eval (get_rec fu idx idx v l r) s2 = Ok val.
Proof.
  revert v l r s s1.
  induction fu as [|fu IH]; intros v l r s s1 Hv Hmax Hl Hli Hir Hr Hup s2 Hs2;
    [done|].
  simpl in Hup. simpl. case_decide as Heq.
  - subst r. assert (idx = l) as -> by lia.
    rewrite decide_True by lia.
    apply tree_write_Ok in Hup as [Hlt ->].
    destruct Hs2 as (_ & _ & _ & Hslots). simpl in Hslots.
    rewrite to_size_t_small in Hlt, Hslots by mlia.
    apply eval_Ok. exists s2. apply tree_read_run; [mlia|].
    rewrite <-Hslots; [|lia|apply desc_refl]. by apply list_lookup_insert_eq.
  - rewrite decide_False by lia.
    rewrite mid_eq, mid_succ_eq in Hup |- * by lia.
    apply bind_Ok in Hup as ([] & s' & Hchild & Hpull).
    assert (same_on (λ w, w ≠ v) s' s1) as Hs.
    { eapply same_on_mono; [|by eapply writes_only_pull_up].
      intros w _ Hne. by intros ?. }
    case_decide as Hside.
    + apply bind_Ok in Hchild as (vl & s0 & (-> & -> & ?)%left_child_Ok & Hup).
      rewrite (eval_bind_run _ _ s2 (2 * v) s2) by (by apply left_child_run).
      eapply IH; [| | | | | |exact Hup|]; [mlia..|].
      eapply same_on_trans.
      * eapply same_on_mono; [|exact Hs]. intros w _. by apply desc_left_ne.
      * eapply same_on_mono; [|exact Hs2]. intros w _. apply desc_left.
    + rewrite decide_True by lia.
      apply bind_Ok in Hchild as (vr & s0 & (-> & -> & ? & ?)%right_child_Ok & Hup).
      rewrite (eval_bind_run _ _ s2 (2 * v + 1) s2) by (by apply right_child_run).
      eapply IH; [| | | | | |exact Hup|]; [mlia..|].
      eapply same_on_trans.
      * eapply same_on_mono; [|exact Hs]. intros w _. by apply desc_right_ne.
      * eapply same_on_mono; [|exact Hs2]. intros w _. apply desc_right.
Qed.

End update_then_get.

(** ** The constructors *)

Section constructors.
Context {T : Type}.
Implicit Types (s : segment_tree T) (v w : Z) (vals : list T).

Lemma vector_assign_Ok count (x : T) tr :
  vector_assign count x = Ok tr ↔
  count ≤ vector_max_size ∧ tr = replicate (Z.to_nat count) x.
Proof. unfold vector_assign. case_decide; naive_solver. Qed.

(** An object of [cnt] elements whose slots all hold [T(0)]. *)
Lemma segment_tree_n_foo_Ok (T_of_int : int → T) cnt f s :
  segment_tree_n_foo T_of_int cnt f = Ok s ↔
  0 ≤ cnt ∧ 4 * cnt ≤ INT_MAX ∧
  s = SegmentTree cnt (replicate (Z.to_nat (4 * cnt)) (T_of_int 0)) f.
Proof.
  unfold segment_tree_n_foo. case_decide as Hint; [|split; [done|mlia]].
  destruct (decide (0 ≤ cnt)) as [Hpos|Hneg].
  - rewrite !to_size_t_small by mlia.
    unfold vector_assign. rewrite decide_True by mlia. simpl.
    split; [intros [= <-]; repeat split; mlia | by intros (_ & _ & ->)].
  - unfold vector_assign. rewrite decide_False; [simpl; split; [done|lia]|].
    unfold to_size_t. machine. lia.
Qed.

Lemma segment_tree_n_unfold (T_of_int : int → T) (T_plus : T → T → T) cnt :
  segment_tree_n T_of_int T_plus cnt = segment_tree_n_foo T_of_int cnt T_plus.
Proof. reflexivity. Qed.

Lemma segment_tree_vec_unfold (T_of_int : int → T) (T_plus : T → T → T) vec :
  segment_tree_vec T_of_int T_plus vec = segment_tree_vec_foo T_of_int vec T_plus.
Proof. reflexivity. Qed.

(** [build] on the leftmost path: a range that reaches [2^k] or beyond
    at slot [v] needs [v * 2^k] below [2^30], or the subscript of a child
    overflows [int]. *)
Lemma build_leftmost (T_of_int : int → T) fuel vec v r s s1 (k : nat) :
  build T_of_int fuel vec v 0 r s = Ok (tt, s1) →
  0 < v → 0 ≤ r → r < SIZE_MOD → 2 ^ Z.of_nat k ≤ r →
  v * 2 ^ Z.of_nat k < 2 ^ 30.
Proof.
  revert v r s s1 k.
  induction fuel as [|fuel IH]; intros v r s s1 k; simpl; [done|].
  intros Hrun Hv Hr0 Hr Hk. pose proof (pow2_pos k) as Hp.
  rewrite decide_False in Hrun by lia.
  apply bind_Ok in Hrun as (vl & s' & (-> & -> & ?)%left_child_Ok & H1).
  apply bind_Ok in H1 as ([] & s2 & Hbl & H2).
  apply bind_Ok in H2 as (vr & s' & (-> & -> & ? & ?)%right_child_Ok & _).
  destruct k as [|k]; [simpl; mlia|].
  rewrite pow2_succ in *.
  assert (size_add 0 r / 2 = r / 2) as Hmid.
  { unfold size_add. by rewrite to_size_t_small by lia. }
  rewrite Hmid in Hbl.
  specialize (IH _ _ _ _ k Hbl). pose proof (pow2_pos k).
  rewrite pow2_30_eq in *. nia.
Qed.

Lemma vec_size_range {A : Type} (vec : list A) :
  0 ≤ vec_size vec < SIZE_MOD ∧ vec_size vec ≤ Z.of_nat (length vec).
Proof.
  unfold vec_size. split; [apply to_size_t_range|].
  unfold to_size_t. machine. lia.
Qed.

(** The size of a tree that [build] has built. *)
Lemma build_size_bound (T_of_int : int → T) fuel vec cnt s s1 :
  0 < cnt → cnt < SIZE_MOD →
  build T_of_int fuel vec 1 0 (cnt - 1) s = Ok (tt, s1) →
  cnt ≤ 2 ^ 30.
Proof.
  intros Hpos Hmod Hrun.
  destruct (decide (cnt = 1)) as [->|Hne]; [rewrite pow2_30_eq; lia|].
  pose proof (Z.log2_spec (cnt - 1) ltac:(lia)) as [Hlo Hhi].
  pose proof (Z.log2_nonneg (cnt - 1)) as Hnn.
  pose proof (build_leftmost _ _ _ _ _ _ _ (Z.to_nat (Z.log2 (cnt - 1))) Hrun) as Hb.
  rewrite Z2Nat.id in Hb by done.
  specialize (Hb ltac:(lia) ltac:(lia) ltac:(lia) Hlo).
  assert (Z.log2 (cnt - 1) < 30) as Hlt.
  { apply (Z.pow_lt_mono_r_iff 2); lia. }
  assert (2 ^ Z.succ (Z.log2 (cnt - 1)) ≤ 2 ^ 30) by (apply Z.pow_le_mono_r; lia).
  lia.
Qed.

End constructors.

(** ** The public interface on well-formed objects *)

Section public.
Context {T : Type}.
Implicit Types (s : segment_tree T) (v w : Z) (vals : list T).

Lemma size_sub_one cnt : 0 < cnt → cnt < SIZE_MOD → size_sub cnt 1 = cnt - 1.
Proof. intros. unfold size_sub. apply to_size_t_small. lia. Qed.

Lemma wf_size s : wf s → n s < SIZE_MOD ∧ n s - 1 < HALF.
Proof. intros (? & ? & _). rewrite pow2_30_eq in *. mlia. Qed.

(** A well-formed object has room for the whole recursion, which is as
    deep as the logarithm of its size. *)
Lemma wf_alloc s :
  wf s → 0 < n s →
  alloc (Z.of_nat (length (tree s))) (Z.to_nat (Z.log2_up (n s))) 1 0 (n s - 1).
Proof.
  intros (Hn0 & Hn & Hlen) Hpos.
  pose proof (Z.log2_up_nonneg (n s)) as Hk.
  assert (n s ≤ 2 ^ Z.log2_up (n s) ∧ 2 ^ Z.log2_up (n s) < 2 * n s) as [Hlo Hhi].
  { destruct (decide (n s = 1)) as [->|Hne]; [by compute|].
    pose proof (Z.log2_up_spec (n s) ltac:(lia)) as [Hlo Hhi].
    split; [done|].
    replace (Z.log2_up (n s)) with (Z.succ (Z.pred (Z.log2_up (n s)))) by lia.
    rewrite Z.pow_succ_r; [lia|]. pose proof (Z.log2_up_pos (n s)). lia. }
  assert (2 ^ Z.log2_up (n s) ≤ 2 ^ 30) as Hpow.
  { apply Z.pow_le_mono_r; [lia|]. apply Z.log2_up_le_pow2; lia. }
  apply alloc_of_bounds; rewrite ?Z2Nat.id by done;
    rewrite ?pow2_30_eq in *; mlia.
Qed.

Lemma fuel_of_enough cnt : 0 < cnt → (Z.to_nat (Z.log2_up cnt) < fuel_of cnt)%nat.
Proof.
  intros. unfold fuel_of. pose proof (Z.log2_up_lt_lin cnt).
  pose proof (Z.log2_up_nonneg cnt). lia.
Qed.

Lemma log_fuel_enough cnt : (Z.to_nat (Z.log2_up cnt) < log_fuel cnt)%nat.
Proof. unfold log_fuel. lia. Qed.

Lemma update_point_unfold point (val : T) s :
  update_point point val s =
  if decide (point < n s)
  then update (fuel_of (n s)) point val 1 0 (size_sub (n s) 1) s
  else Ok (tt, s).
Proof. unfold update_point, bind, read_n. by case_decide. Qed.

Lemma get_unfold (T_of_int : int → T) left right s :
  get T_of_int left right s =
  if decide (left ≤ right ∧ right < n s)
  then get_rec (fuel_of (n s)) left right 1 0 (size_sub (n s) 1) s
  else Ok (T_of_int 0, s).
Proof. unfold get, bind, read_n. by case_decide. Qed.

(** [update_point] beyond the size does nothing. *)
Lemma update_point_out point (val : T) s :
  n s ≤ point → update_point point val s = Ok (tt, s).
Proof. intros. rewrite update_point_unfold. by rewrite decide_False by lia. Qed.

(** [update_point] inside the size returns, and keeps the object
    well-formed. *)
Lemma update_point_in point (val : T) s :
  wf s → 0 ≤ point → point < n s →
  ∃ s1, update_point point val s = Ok (tt, s1) ∧
        update (fuel_of (n s)) point val 1 0 (n s - 1) s = Ok (tt, s1) ∧
        wf s1 ∧ n s1 = n s ∧ foo s1 = foo s.
Proof.
  intros Hwf Hpoint Hlt. pose proof Hwf as (Hn0 & Hn & Hlen).
  pose proof (wf_size _ Hwf) as [? ?].
  assert (0 < n s) as Hpos by lia.
  destruct (update_total _ _ _ _ _ (wf_alloc s Hwf Hpos)
              (fuel_of (n s)) point val s eq_refl (fuel_of_enough _ Hpos))
    as [s1 Hs1].
  assert ((0:Z) < 1) as H01 by lia. assert (1 ≤ INT_MAX) as H1max by mlia.
  pose proof (writes_only_update _ _ _ _ _ _ H01 H1max _ _ _ Hs1)
    as (Hn1 & Hfoo & Hlen1 & _).
  exists s1. rewrite update_point_unfold, decide_True by done.
  rewrite size_sub_one by lia. unfold wf.
  rewrite <-Hn1, <-Hlen1. by repeat split.
Qed.

Lemma update_point_wf point (val : T) s :
  wf s → 0 ≤ point →
  ∃ s1, update_point point val s = Ok (tt, s1) ∧
        wf s1 ∧ n s1 = n s ∧ foo s1 = foo s.
Proof.
  intros Hwf Hpoint. destruct (decide (point < n s)) as [Hlt|Hge].
  - destruct (update_point_in point val s Hwf Hpoint Hlt) as (s1 & ? & _ & ?).
    by exists s1.
  - exists s. by rewrite update_point_out by lia.
Qed.

(** The public [get] returns on every well-formed object and leaves it
    unchanged. *)
Lemma get_total (T_of_int : int → T) left right s :
  wf s → 0 ≤ right → ∃ x, get T_of_int left right s = Ok (x, s).
Proof.
  intros Hwf Hright. rewrite get_unfold. case_decide as Hq; [|by eexists].
  pose proof (wf_size _ Hwf) as [? ?]. pose proof Hwf as (Hn0 & _).
  assert (0 < n s) as Hpos by lia.
  rewrite size_sub_one by lia.
  eapply get_rec_total;
    [apply (wf_alloc s Hwf Hpos)|done|by apply fuel_of_enough|lia..].
Qed.

(** *** Objects that stand for a sequence of values *)

Lemma update_point_represents point (val : T) s s1 vals :
  represents s vals → 0 ≤ point → point < n s →
  update_point point val s = Ok (tt, s1) →
  represents s1 (<[Z.to_nat point := val]> vals).
Proof.
  intros (Hwf & Hlen & Hsh) Hpoint Hlt Hrun.
  destruct (update_point_in point val s Hwf Hpoint Hlt)
    as (s1' & Hrun' & Hup & Hwf1 & Hn1 & Hfoo1).
  assert (s1' = s1) as -> by congruence.
  pose proof (wf_size _ Hwf) as [? ?].
  repeat split; try apply Hwf1.
  - rewrite length_insert. lia.
  - intros _. rewrite Hn1.
    eapply update_shaped; [| |apply Hsh| | |exact Hup]; mlia.
Qed.

Lemma get_represents (T_of_int : int → T) left right s vals :
  Assoc (=) (foo s) →
  represents s vals → 0 ≤ left → left ≤ right → right < n s →
  ∃ x, get T_of_int left right s = Ok (x, s) ∧
       range_fold (foo s) vals left right = Some x.
Proof.
  intros Hassoc (Hwf & Hlen & Hsh) Hleft Hq Hright.
  destruct (get_total T_of_int left right s Hwf ltac:(lia)) as [x Hx].
  exists x. split; [done|].
  pose proof (wf_size _ Hwf) as [? ?].
  rewrite get_unfold, decide_True, size_sub_one in Hx by lia.
  assert (range_fold (foo s) vals (Z.max 0 left) (Z.min (n s - 1) right) = Some x)
    as Hfold
    by (eapply get_rec_shaped; [done|apply Hsh| | | | | |exact Hx]; mlia).
  replace (Z.max 0 left) with left in Hfold by lia.
  by replace (Z.min (n s - 1) right) with right in Hfold by lia.
Qed.

(** A sequence of point updates returns; the object stands for the
    updated values as long as the positions are inside the size. *)
Lemma run_updates_represents ups s vals :
  represents s vals →
  Forall (λ u : size_t * T, 0 ≤ u.1) ups →
  ∃ s1 vals1,
    run_updates ups s = Ok s1 ∧ represents s1 vals1 ∧
    n s1 = n s ∧ foo s1 = foo s ∧
    (Forall (λ u : size_t * T, u.1 < n s) ups → vals1 = logical vals ups).
Proof.
  intros Hrep Hups. revert s vals Hrep.
  induction Hups as [|[point val] ups Hpoint _ IH]; intros s vals Hrep; simpl in *.
  { exists s, vals. split; [done|]. split; [done|]. by repeat split. }
  destruct (decide (point < n s)) as [Hlt|Hge].
  - destruct Hrep as (Hwf & Hlen & Hsh).
    destruct (update_point_in point val s Hwf Hpoint Hlt)
      as (s1 & Hrun & _ & Hwf1 & Hn1 & Hfoo1).
    assert (represents s1 (<[Z.to_nat point := val]> vals)) as Hrep1.
    { eapply update_point_represents; [| | |exact Hrun]; done. }
    destruct (IH _ _ Hrep1) as (s2 & vals2 & Hrun2 & Hrep2 & Hn2 & Hfoo2 & Hvals).
    exists s2, vals2. unfold exec. rewrite Hrun. simpl.
    split; [done|]. split; [done|]. repeat split; try congruence.
    intros Hall. apply Hvals. inversion Hall; subst. by rewrite Hn1.
  - destruct (IH _ _ Hrep) as (s2 & vals2 & Hrun2 & Hrep2 & Hn2 & Hfoo2 & Hvals).
    exists s2, vals2. unfold exec. rewrite update_point_out by lia. simpl.
    split; [done|]. split; [done|]. repeat split; try done.
    intros Hall. inversion Hall; simpl in *; lia.
Qed.

End public.

(** ** What the constructors establish *)

Section established.
Context {T : Type}.
Implicit Types (s : segment_tree T) (vals : list T).

Lemma wf_n_foo (T_of_int : int → T) cnt f s :
  segment_tree_n_foo T_of_int cnt f = Ok s → wf s.
Proof.
  intros (Hcnt & Hmax & ->)%segment_tree_n_foo_Ok. unfold wf. simpl.
  rewrite length_replicate, pow2_30_eq. mlia.
Qed.

(** The constructors from a sequence return an object that stands for
    the sequence. *)
Lemma segment_tree_vec_foo_Ok (T_of_int : int → T) vec f s :
  segment_tree_vec_foo T_of_int vec f = Ok s →
  represents s (T_of_int <$> vec) ∧ foo s = f ∧ n s = vec_size vec.
Proof.
  unfold segment_tree_vec_foo.
  pose proof (vec_size_range vec) as [[Hc0 Hc1] Hc2].
  destruct (vector_assign _ _) as [tr| |] eqn:Htr; simpl; [|done..].
  apply vector_assign_Ok in Htr as [_ ->].
  case_decide as Hne.
  - intros [u Hrun]%exec_Ok. destruct u.
    rewrite size_sub_one in Hrun by lia.
    assert (0 < vec_size vec) as Hc3 by lia.
    pose proof (build_size_bound _ _ _ _ _ _ Hc3 Hc1 Hrun) as Hbound.
    assert ((0:Z) < 1) as H01 by lia. assert (1 ≤ INT_MAX) as H1max by mlia.
    pose proof (writes_only_build T_of_int _ _ _ _ _ H01 H1max _ _ _ Hrun)
      as (Hn & Hfoo & Hlen & _). simpl in Hn, Hfoo, Hlen.
    rewrite length_replicate in Hlen.
    assert (size_mul 4 (vec_size vec) = 4 * vec_size vec) as Hmul.
    { unfold size_mul. apply to_size_t_small. rewrite pow2_30_eq in *. mlia. }
    rewrite Hmul in Hlen.
    split; [|by split]. split; [|split].
    + unfold wf. rewrite <-Hn, <-Hlen. repeat split; lia.
    + rewrite length_fmap. lia.
    + intros _. rewrite <-Hn.
      eapply build_shaped; [| | | | |exact Hrun]; rewrite ?pow2_30_eq in *; mlia.
  - intros [= <-]. simpl. assert (vec_size vec = 0) as -> by lia.
    split; [|done]. split; [|split]; simpl.
    + unfold wf. simpl. by compute.
    + lia.
    + lia.
Qed.

Lemma length_vec_size {A : Type} (vec : list A) :
  Z.of_nat (length vec) < SIZE_MOD → vec_size vec = Z.of_nat (length vec).
Proof. intros. unfold vec_size. apply to_size_t_small. lia. Qed.

(** They return for every sequence of at most [2^30] elements. *)
Lemma segment_tree_vec_foo_total (T_of_int : int → T) vec f :
  Z.of_nat (length vec) ≤ 2 ^ 30 →
  ∃ s, segment_tree_vec_foo T_of_int vec f = Ok s.
Proof.
  intros Hlen. rewrite pow2_30_eq in Hlen. unfold segment_tree_vec_foo.
  rewrite length_vec_size by mlia.
  assert (size_mul 4 (Z.of_nat (length vec)) = 4 * Z.of_nat (length vec)) as ->.
  { unfold size_mul. apply to_size_t_small. mlia. }
  unfold vector_assign. rewrite decide_True by mlia. simpl.
  case_decide as Hne; [|by eexists].
  set (s0 := SegmentTree _ _ f).
  assert (wf s0) as Hwf.
  { unfold wf. simpl. rewrite length_replicate, pow2_30_eq. lia. }
  rewrite size_sub_one by mlia.
  assert (0 < n s0) as Hpos by (simpl; lia).
  assert (n s0 - 1 < Z.of_nat (length vec)) as Hvec by (simpl; lia).
  destruct (build_total T_of_int _ _ _ _ _ (wf_alloc s0 Hwf Hpos)
              (fuel_of (n s0)) vec s0 eq_refl
              (fuel_of_enough _ Hpos) Hvec) as [s1 Hs1].
  exists s1. apply exec_Ok. by exists tt.
Qed.

(** Every object a client can hold is well-formed. *)
Lemma reachable_wf (T_of_int : int → T) (T_plus : T → T → T) s :
  reachable T_of_int T_plus s → wf s.
Proof.
  induction 1 as [cnt f s Hs|cnt s Hs|vec f s Hs|vec s Hs
                 |point val s s' _ IH Hrun].
  - by eapply wf_n_foo.
  - by eapply wf_n_foo.
  - by apply segment_tree_vec_foo_Ok in Hs as [[? _] _].
  - by apply segment_tree_vec_foo_Ok in Hs as [[? _] _].
  - apply exec_Ok in Hrun as [u Hrun]. rewrite update_point_unfold in Hrun.
    case_decide; [|by injection Hrun as _ <-].
    assert ((0:Z) < 1) as H01 by lia. assert (1 ≤ INT_MAX) as H1max by mlia.
    destruct u.
    pose proof (writes_only_update _ _ _ _ _ _ H01 H1max _ _ _ Hrun)
      as (Hn & _ & Hlen & _).
    unfold wf. by rewrite <-Hn, <-Hlen.
Qed.

End established.

(** ** The two files at [T = int] *)

Lemma int_plus_assoc : Assoc (=) int_plus.
Proof. intros a b c. unfold int_plus, wrap_int. machine. lia. Qed.

Lemma not_identity_times_zero : ¬ is_identity int_times 0.
Proof. intros H. destruct (H 2) as [H2 _]. by vm_compute in H2. Qed.

Lemma bind_ext {T A B : Type} (m m' : M T A) (k k' : A → M T B) s :
  m s = m' s → (∀ a s1, k a s1 = k' a s1) → bind m k s = bind m' k' s.
Proof. intros Hm Hk. unfold bind. rewrite Hm. by destruct (m' s) as [[a s1]| |]. Qed.

Lemma twin_build fuel vec v l r s :
  Part000.build fuel vec v l r s = build id fuel vec v l r s.
Proof.
  revert v l r s. induction fuel as [|fuel IH]; intros v l r s; simpl; [done|].
  case_decide; [done|].
  apply bind_ext; [done|]. intros vl s1.
  apply bind_ext; [apply IH|]. intros _ s2.
  apply bind_ext; [done|]. intros vr s3.
  apply bind_ext; [apply IH|]. done.
Qed.

Lemma twin_update fuel idx (val : int) v l r s :
  Part000.update fuel idx val v l r s = update fuel idx val v l r s.
Proof.
  revert v l r s. induction fuel as [|fuel IH]; intros v l r s; simpl; [done|].
  case_decide; [done|].
  apply bind_ext; [|done].
  case_decide; (apply bind_ext; [done|]); intros; apply IH.
Qed.

Lemma twin_get_rec fuel left right v l r (s : segment_tree int) :
  Part000.get_rec fuel left right v l r s = get_rec fuel left right v l r s.
Proof.
  revert v l r s. induction fuel as [|fuel IH]; intros v l r s; simpl; [done|].
  case_decide; [done|].
  case_decide; [apply bind_ext; [done|]; intros; apply IH|].
  case_decide; [apply bind_ext; [done|]; intros; apply IH|].
  apply bind_ext; [done|]. intros vl s1.
  apply bind_ext; [apply IH|]. intros a s2.
  apply bind_ext; [done|]. intros vr s3.
  apply bind_ext; [apply IH|]. done.
Qed.

Lemma twin_construct c : construct part_000 c = construct segtree_cpp c.
Proof.
  destruct c as [cnt f|cnt|vec f|vec]; simpl; [done|done|..].
  - unfold Part000.segment_tree_vec_foo, segment_tree_vec_foo, id at 1.
    destruct (vector_assign _ _) as [tr| |]; simpl; [|done..].
    destruct (decide _); [|done]. unfold exec. by rewrite twin_build.
  - unfold Part000.segment_tree_vec, segment_tree_vec, id at 1.
    destruct (vector_assign _ _) as [tr| |]; simpl; [|done..].
    destruct (decide _); [|done]. unfold exec. by rewrite twin_build.
Qed.

Lemma twin_update_point point (val : int) s :
  Part000.update_point point val s = update_point point val s.
Proof.
  unfold Part000.update_point, update_point.
  apply bind_ext; [done|]. intros cnt s1. case_decide; [apply twin_update|done].
Qed.

Lemma twin_get left right (s : segment_tree int) :
  Part000.get 0 left right s = get id left right s.
Proof.
  unfold Part000.get, get.
  apply bind_ext; [done|]. intros cnt s1. case_decide; [apply twin_get_rec|done].
Qed.

Lemma covers_shaped {T : Type} (s : segment_tree T) vals v l r :
  shaped s vals 1 0 (n s - 1) → covers (n s) v l r → shaped s vals v l r.
Proof.
  intros Hroot. induction 1 as [|v l r _ IH Hlr|v l r _ IH Hlr]; [done|..].
  - inversion IH; subst; [lia|done].
  - inversion IH; subst; [lia|done].
Qed.

(** ** The properties of the public interface *)

Section properties.
Context {T : Type}.
Implicit Types (s : segment_tree T) (vals : list T).

Lemma built_from_represents (T_of_int : int → T) (T_plus : T → T → T) vec f s :
  built_from T_of_int T_plus vec f s →
  represents s (T_of_int <$> vec) ∧ foo s = f ∧ n s = vec_size vec.
Proof.
  intros [Hs|[-> Hs]]; by apply segment_tree_vec_foo_Ok in Hs.
Qed.

(** C1: on a tree built from a sequence with an associative combiner
    and changed by any sequence of valid point updates, every query
    with [left <= right < n] returns the fold, from the left and in the
    order of the positions, of the current values at [left..right]. *)
Theorem query_folds_range (T_of_int : int → T) (T_plus : T → T → T) vec f s ups :
  Assoc (=) f →
  built_from T_of_int T_plus vec f s →
  Forall (λ u : size_t * T, 0 ≤ u.1 ∧ u.1 < n s) ups →
  ∃ s1, run_updates ups s = Ok s1 ∧
    ∀ left right, 0 ≤ left → left ≤ right → right < n s1 →
      ∃ x, get T_of_int left right s1 = Ok (x, s1) ∧
           range_fold f (logical (T_of_int <$> vec) ups) left right = Some x.
Proof.
  intros Hassoc Hbuilt Hups.
  destruct (built_from_represents _ _ _ _ _ Hbuilt) as (Hrep & Hfoo & _).
  destruct (run_updates_represents ups s _ Hrep)
    as (s1 & vals1 & Hrun & Hrep1 & Hn1 & Hfoo1 & Hvals).
  { eapply Forall_impl; [exact Hups|]. by intros u [? _]. }
  rewrite Hvals in Hrep1 by (eapply Forall_impl; [exact Hups|]; by intros u [_ ?]).
  exists s1. split; [done|]. intros left right Hleft Hq Hright.
  rewrite <-Hfoo, <-Hfoo1. apply get_represents; try done.
  by rewrite Hfoo1, Hfoo.
Qed.

(** C2: on a tree of [n > 0] elements built from a sequence, after any
    number of [update_point] calls, every slot [v] that covers a range
    [[l, r]] with [l < r] holds the combination of slots [2v] and
    [2v + 1], which cover [[l, mid]] and [[mid + 1, r]]. *)
Theorem internal_slots_combine (T_of_int : int → T) (T_plus : T → T → T)
    vec f s ups :
  built_from T_of_int T_plus vec f s →
  0 < n s →
  Forall (λ u : size_t * T, 0 ≤ u.1) ups →
  ∃ s1, run_updates ups s = Ok s1 ∧
    ∀ v l r, covers (n s1) v l r → l < r →
      covers (n s1) (2 * v) l ((l + r) / 2) ∧
      covers (n s1) (2 * v + 1) ((l + r) / 2 + 1) r ∧
      ∃ a b, tree s1 !! Z.to_nat (2 * v) = Some a ∧
             tree s1 !! Z.to_nat (2 * v + 1) = Some b ∧
             tree s1 !! Z.to_nat v = Some (foo s1 a b).
Proof.
  intros Hbuilt Hpos Hups.
  destruct (built_from_represents _ _ _ _ _ Hbuilt) as (Hrep & _ & _).
  destruct (run_updates_represents ups s _ Hrep Hups)
    as (s1 & vals1 & Hrun & (_ & _ & Hsh) & Hn1 & _ & _).
  exists s1. split; [done|]. intros v l r Hcov Hlr.
  split; [by constructor|]. split; [by constructor|].
  pose proof (covers_shaped s1 vals1 v l r (Hsh ltac:(lia)) Hcov) as Hv.
  inversion Hv as [|? ? ? a b]; subst; [lia|]. by exists a, b.
Qed.

(** C3: after [update_point(index, v)] with [index < n], the query of
    [index] alone returns [v], and every query whose range leaves
    [index] out returns what it returned before. *)
Theorem update_then_query (T_of_int : int → T) (T_plus : T → T → T)
    s index (val : T) :
  reachable T_of_int T_plus s → 0 ≤ index → index < n s →
  ∃ s1, update_point index val s = Ok (tt, s1) ∧
    get T_of_int index index s1 = Ok (val, s1) ∧
    ∀ left right, 0 ≤ right → ¬ (left ≤ index ∧ index ≤ right) →
      ∃ x, get T_of_int left right s = Ok (x, s) ∧
           get T_of_int left right s1 = Ok (x, s1).
Proof.
  intros Hwf%reachable_wf Hindex Hlt.
  destruct (update_point_in index val s Hwf Hindex Hlt)
    as (s1 & Hrun & Hup & Hwf1 & Hn1 & Hfoo1).
  pose proof (wf_size _ Hwf) as [? ?].
  assert ((0:Z) < 1) as H01 by lia. assert (1 ≤ INT_MAX) as H1max by mlia.
  exists s1. split; [done|]. split.
  - destruct (get_total T_of_int index index s1 Hwf1 Hindex) as [x Hx].
    rewrite Hx. do 2 f_equal.
    assert (eval (get T_of_int index index) s1 = Ok x) as Hev
      by (apply eval_Ok; eauto).
    unfold eval in Hev.
    rewrite get_unfold, decide_True, Hn1, size_sub_one in Hev by lia.
    assert (eval (get_rec (fuel_of (n s)) index index 1 0 (n s - 1)) s1 = Ok val)
      as Hsame.
    { eapply (update_get_same _ _ _ _ _ _ _ _ H01 H1max);
        [..|exact Hup|apply same_on_refl]; lia. }
    unfold eval in Hsame. congruence.
  - intros left right Hright Hout.
    destruct (get_total T_of_int left right s Hwf Hright) as [x Hx].
    destruct (get_total T_of_int left right s1 Hwf1 Hright) as [x1 Hx1].
    exists x. split; [done|]. rewrite Hx1. do 2 f_equal.
    assert (eval (get T_of_int left right) s1 = eval (get T_of_int left right) s)
      as Hev.
    { unfold eval. rewrite !get_unfold, Hn1. case_decide; [|done].
      rewrite size_sub_one by lia.
      eapply (update_get_other _ _ _ _ _ _ _ _ _ _ H01 H1max); [..|exact Hup];
        lia. }
    unfold eval in Hev. rewrite Hx, Hx1 in Hev. simpl in Hev. congruence.
Qed.

(** C4, as the code has it: a query with [left > right] or
    [right >= n] returns [T(0)], whatever the combiner, and leaves the
    object as it is. *)
Theorem ill_formed_query_returns_zero (T_of_int : int → T) s (left right : size_t) :
  left > right ∨ n s ≤ right →
  get T_of_int left right s = Ok (T_of_int 0, s).
Proof. intros Hill. rewrite get_unfold. by rewrite decide_False by lia. Qed.

(** C5: [update_point] with [index >= n] returns without an error and
    leaves the size, every slot and the combiner as they are. *)
Theorem update_point_beyond_size s (index : size_t) (val : T) :
  n s ≤ index → update_point index val s = Ok (tt, s).
Proof. apply update_point_out. Qed.

(** C6, as the code has it: the constructor from the empty sequence
    returns an object of size [0] with no slot, on which every query
    returns [T(0)] and every [update_point] leaves the object as it is. *)
Theorem empty_sequence (T_of_int : int → T) (T_plus : T → T → T) f :
  segment_tree_vec_foo T_of_int [] f = Ok (empty_tree f) ∧
  segment_tree_vec T_of_int T_plus [] = Ok (empty_tree T_plus) ∧
  (∀ left right,
     0 ≤ right → get T_of_int left right (empty_tree f) = Ok (T_of_int 0, empty_tree f)) ∧
  (∀ point val,
     0 ≤ point → update_point point val (empty_tree f) = Ok (tt, empty_tree f)).
Proof.
  split; [done|]. split; [done|]. split.
  - intros left right Hright. rewrite get_unfold.
    rewrite decide_False; [done|]. simpl. lia.
  - intros point val Hpoint. apply update_point_out. simpl. lia.
Qed.

(** C8: on every object a client can hold, a query returns and leaves
    the size, every slot and the combiner as they were. *)
Theorem query_does_not_mutate (T_of_int : int → T) (T_plus : T → T → T)
    s left right :
  reachable T_of_int T_plus s → 0 ≤ right →
  ∃ x, get T_of_int left right s = Ok (x, s).
Proof. intros Hwf%reachable_wf Hright. by apply get_total. Qed.

(** C9: the three recursions return.  Each call on a range of two or
    more positions descends into the two strictly shorter halves, and a
    recursion bound of one more than the logarithm of the size is
    enough for [build] on a sequence of up to [2^30] elements and for
    [update] and [get] on every object a client can hold. *)
Theorem recursion_terminates (T_of_int : int → T) (T_plus : T → T → T) :
  (∀ l r, 0 ≤ l → l < r → r < HALF →
     l ≤ size_add l r / 2 ∧ size_add l r / 2 < r ∧
     l < size_add (size_add l r / 2) 1 ∧ size_add (size_add l r / 2) 1 ≤ r) ∧
  (∀ vec f,
     let cnt := Z.of_nat (length vec) in
     0 < cnt → cnt ≤ 2 ^ 30 →
     ∃ s1, build T_of_int (log_fuel cnt) vec 1 0 (size_sub cnt 1)
             (SegmentTree cnt (replicate (Z.to_nat (size_mul 4 cnt)) (T_of_int 0)) f)
           = Ok (tt, s1)) ∧
  (∀ s idx val,
     reachable T_of_int T_plus s → idx < n s → 0 ≤ idx →
     ∃ s1, update (log_fuel (n s)) idx val 1 0 (size_sub (n s) 1) s = Ok (tt, s1)) ∧
  (∀ s left right,
     reachable T_of_int T_plus s → 0 ≤ left → left ≤ right → right < n s →
     ∃ x, get_rec (log_fuel (n s)) left right 1 0 (size_sub (n s) 1) s = Ok (x, s)).
Proof.
  split; [|split; [|split]].
  - intros l r Hl Hlr Hr. rewrite mid_eq, mid_succ_eq by lia. lia.
  - intros vec f cnt Hpos Hmax. rewrite pow2_30_eq in Hmax.
    assert (size_mul 4 cnt = 4 * cnt) as ->.
    { unfold size_mul. apply to_size_t_small. mlia. }
    set (s0 := SegmentTree _ _ f).
    assert (wf s0) as Hwf.
    { unfold wf. simpl. rewrite length_replicate, pow2_30_eq. lia. }
    rewrite size_sub_one by mlia.
    apply (build_total T_of_int _ _ _ _ _ (wf_alloc s0 Hwf Hpos)
             (log_fuel cnt) vec s0 eq_refl (log_fuel_enough _)).
    simpl. lia.
  - intros s idx val Hwf%reachable_wf Hlt Hidx.
    pose proof (wf_size _ Hwf) as [? ?]. assert (0 < n s) as Hpos by lia.
    rewrite size_sub_one by lia.
    apply (update_total _ _ _ _ _ (wf_alloc s Hwf Hpos)
             (log_fuel (n s)) idx val s eq_refl (log_fuel_enough _)).
  - intros s left right Hwf%reachable_wf Hleft Hq Hright.
    pose proof (wf_size _ Hwf) as [? ?]. assert (0 < n s) as Hpos by lia.
    rewrite size_sub_one by lia.
    apply (get_rec_total _ _ _ _ _ (wf_alloc s Hwf Hpos)
             (log_fuel (n s)) left right s eq_refl (log_fuel_enough _)); lia.
Qed.

End properties.

(** ** The usage example and the two files *)

(** The object the constructors build from the vector of [main]. *)
Lemma main_v_built (f : int → int → int) :
  segment_tree_vec_foo id main_v f =
  Ok (SegmentTree 5
        [0; f (f (f 2 4) 1) (f 42 9); f (f 2 4) 1; f 42 9; f 2 4; 1; 42; 9; 2; 4;
         0; 0; 0; 0; 0; 0; 0; 0; 0; 0] f).
Proof. vm_compute. reflexivity. Qed.

Lemma st_sum_built : st_sum = Ok st_sum_tree.
Proof.
  unfold st_sum. rewrite segment_tree_vec_unfold, main_v_built.
  unfold st_sum_tree. by do 2 f_equal.
Qed.

Lemma st_prd_built : st_prd = Ok st_prd_tree.
Proof. unfold st_prd. rewrite main_v_built. unfold st_prd_tree. by do 2 f_equal. Qed.

(** C7: on the tree built from [2, 4, 1, 42, 9] with the default sum,
    [get(1, 3)] returns 47; after [update_point(2, 7)], [get(1, 3)]
    returns 53 and [get(2, 3)] returns 49. *)
Theorem main_sum_example :
  st_sum = Ok st_sum_tree ∧
  eval (get id 1 3) st_sum_tree = Ok 47 ∧
  result_bind (exec (update_point 2 7) st_sum_tree) (eval (get id 1 3)) = Ok 53 ∧
  result_bind (exec (update_point 2 7) st_sum_tree) (eval (get id 2 3)) = Ok 49.
Proof.
  split; [apply st_sum_built|]. split; [vm_compute; reflexivity|].
  split; vm_compute; reflexivity.
Qed.

(** C10: for [int] elements the class of src/segtree.cpp and the class
    of src/unnamed/part_000 give the same results to every client:
    whatever the constructor among the four they share and whatever the
    calls of [update_point] and [get] that follow, the values the [get]
    calls return are the same, and so is a crash. *)
Theorem twin_files_agree (c : ctor) (calls : list call) :
  observe part_000 c calls = observe segtree_cpp c calls.
Proof.
  unfold observe. rewrite twin_construct.
  destruct (construct segtree_cpp c) as [s| |]; simpl; [|done..].
  revert s. induction calls as [|[point val|lo hi] calls IH]; intros s; simpl; [done|..].
  - unfold exec. rewrite twin_update_point.
    destruct (update_point point val s) as [[u s1]| |]; simpl; [|done..]. apply IH.
  - rewrite twin_get.
    destruct (get id lo hi s) as [[x s1]| |]; simpl; [|done..]. by rewrite IH.
Qed.

(** Against C4 as the spec words it: with the product as combiner the
    ill-formed query [get(3, 1)] returns 0, which is not the neutral
    element of the product. *)
Lemma ill_formed_query_product :
  st_prd = Ok st_prd_tree ∧
  eval (get id 3 1) st_prd_tree = Ok 0 ∧
  ¬ is_identity int_times 0.
Proof.
  split; [apply st_prd_built|]. split; [vm_compute; reflexivity|].
  apply not_identity_times_zero.
Qed.

(** Against C6 as the spec words it: the tree built from the empty
    sequence with the product as combiner answers the query [get(0, 0)]
    with 0, which is not the neutral element of the product. *)
Lemma empty_sequence_product :
  segment_tree_vec_foo id [] int_times = Ok (empty_tree int_times) ∧
  eval (get id 0 0) (empty_tree int_times) = Ok 0 ∧
  ¬ is_identity int_times 0.
Proof.
  split; [reflexivity|]. split; [vm_compute; reflexivity|].
  apply not_identity_times_zero.
Qed.

(** ** The properties at the objects of the usage example *)

Lemma st_sum_tree_built : built_from id int_plus main_v int_plus st_sum_tree.
Proof. left. apply main_v_built. Qed.

Lemma st_sum_tree_reachable : reachable id int_plus st_sum_tree.
Proof. apply (reach_vec id int_plus main_v). apply st_sum_built. Qed.

Lemma query_folds_range_witness :
  ∃ s1, run_updates [(2, 7)] st_sum_tree = Ok s1 ∧
    ∀ left right, 0 ≤ left → left ≤ right → right < n s1 →
      ∃ x, get id left right s1 = Ok (x, s1) ∧
           range_fold int_plus (logical (id <$> main_v) [(2, 7)]) left right = Some x.
Proof.
  apply (query_folds_range id int_plus main_v int_plus st_sum_tree [(2, 7)]).
  - apply int_plus_assoc.
  - apply st_sum_tree_built.
  - repeat constructor; simpl; lia.
Defined.

Lemma internal_slots_combine_witness :
  ∃ s1, run_updates [(2, 7); (9, 1)] st_sum_tree = Ok s1 ∧
    ∀ v l r, covers (n s1) v l r → l < r →
      covers (n s1) (2 * v) l ((l + r) / 2) ∧
      covers (n s1) (2 * v + 1) ((l + r) / 2 + 1) r ∧
      ∃ a b, tree s1 !! Z.to_nat (2 * v) = Some a ∧
             tree s1 !! Z.to_nat (2 * v + 1) = Some b ∧
             tree s1 !! Z.to_nat v = Some (foo s1 a b).
Proof.
  apply (internal_slots_combine id int_plus main_v int_plus st_sum_tree [(2, 7); (9, 1)]).
  - apply st_sum_tree_built.
  - simpl. lia.
  - repeat constructor; simpl; lia.
Defined.

Lemma update_then_query_witness :
  ∃ s1, update_point 2 7 st_sum_tree = Ok (tt, s1) ∧
    get id 2 2 s1 = Ok (7, s1) ∧
    ∀ left right, 0 ≤ right → ¬ (left ≤ 2 ∧ 2 ≤ right) →
      ∃ x, get id left right st_sum_tree = Ok (x, st_sum_tree) ∧
           get id left right s1 = Ok (x, s1).
Proof.
  apply (update_then_query id int_plus st_sum_tree 2 7).
  - apply st_sum_tree_reachable.
  - lia.
  - simpl. lia.
Defined.

Lemma ill_formed_query_returns_zero_witness :
  get id 3 1 st_prd_tree = Ok (0, st_prd_tree) ∧
  get id 1 5 st_prd_tree = Ok (0, st_prd_tree).
Proof.
  split.
  - apply (ill_formed_query_returns_zero id st_prd_tree 3 1). left. lia.
  - apply (ill_formed_query_returns_zero id st_prd_tree 1 5). right. simpl. lia.
Defined.

Lemma update_point_beyond_size_witness :
  update_point 5 7 st_sum_tree = Ok (tt, st_sum_tree).
Proof. apply (update_point_beyond_size st_sum_tree 5 7). simpl. lia. Defined.

Lemma empty_sequence_witness :
  get id 0 0 (empty_tree int_times) = Ok (0, empty_tree int_times) ∧
  update_point 0 7 (empty_tree int_times) = Ok (tt, empty_tree int_times).
Proof.
  destruct (empty_sequence id int_plus int_times) as (_ & _ & Hget & Hupdate).
  split; [apply Hget; lia | apply Hupdate; lia].
Defined.

Lemma query_does_not_mutate_witness :
  ∃ x, get id 1 3 st_sum_tree = Ok (x, st_sum_tree).
Proof.
  apply (query_does_not_mutate id int_plus st_sum_tree 1 3).
  - apply st_sum_tree_reachable.
  - lia.
Defined.

Lemma recursion_terminates_witness :
  (0 ≤ size_add 0 4 / 2 ∧ size_add 0 4 / 2 < 4 ∧
   0 < size_add (size_add 0 4 / 2) 1 ∧ size_add (size_add 0 4 / 2) 1 ≤ 4) ∧
  (∃ s1, build id (log_fuel 5) main_v 1 0 (size_sub 5 1)
           (SegmentTree 5 (replicate (Z.to_nat (size_mul 4 5)) (id 0)) int_plus)
         = Ok (tt, s1)) ∧
  (∃ s1, update (log_fuel (n st_sum_tree)) 2 7 1 0 (size_sub (n st_sum_tree) 1)
           st_sum_tree = Ok (tt, s1)) ∧
  (∃ x, get_rec (log_fuel (n st_sum_tree)) 1 3 1 0 (size_sub (n st_sum_tree) 1)
          st_sum_tree = Ok (x, st_sum_tree)).
Proof.
  destruct (recursion_terminates id int_plus) as (Hhalf & Hbuild & Hupdate & Hget).
  split; [|split; [|split]].
  - apply Hhalf; [lia|lia|vm_compute; reflexivity].
  - apply (Hbuild main_v int_plus); [simpl; lia | vm_compute; discriminate].
  - apply Hupdate; [apply st_sum_tree_reachable | simpl; lia | lia].
  - apply Hget; [apply st_sum_tree_reachable | lia | lia | simpl; lia].
Defined.

(** ** Construction: which sizes give an object *)

Section construction.
Context {T : Type}.
Implicit Types (s : segment_tree T) (v w : Z) (vals : list T).

Lemma sized_as_Ok (T_of_int : int → T) (T_plus : T → T → T) cnt f s :
  sized_as T_of_int T_plus cnt f s ↔
  0 ≤ cnt ∧ 4 * cnt ≤ INT_MAX ∧
  s = SegmentTree cnt (replicate (Z.to_nat (4 * cnt)) (T_of_int 0)) f.
Proof.
  unfold sized_as. rewrite segment_tree_n_unfold, !segment_tree_n_foo_Ok. split.
  - intros [?|[-> ?]]; done.
  - by left.
Qed.


Lemma build_leftmost_crash (T_of_int : int → T) fuel vec (k : nat) v r s :
  0 < v → 0 ≤ r → r < SIZE_MOD →
  2 ^ Z.of_nat k ≤ r → 2 ^ 30 ≤ v * 2 ^ Z.of_nat k → (k < fuel)%nat →
  build T_of_int fuel vec v 0 r s = Crash.
Proof.
  revert k v r s.
  induction fuel as [|fuel IH]; intros k v r s Hv Hr0 Hr Hk Hbig Hfuel; [lia|].
  pose proof (pow2_pos k) as Hp. simpl. rewrite decide_False by lia.
  destruct (decide (2 ^ 30 ≤ v)) as [Hover|Hfits].
  - unfold bind, left_child, int_chk. rewrite decide_False; [done|].
    rewrite pow2_30_eq in *. mlia.
  - destruct k as [|k]; [simpl in *; lia|].
    rewrite pow2_succ in *. pose proof (pow2_pos k).
    rewrite (bind_run _ _ s (2 * v) s)
      by (apply left_child_run; rewrite pow2_30_eq in *; mlia).
    assert (size_add 0 r / 2 = r / 2) as ->.
    { unfold size_add. by rewrite to_size_t_small by lia. }
    unfold bind at 1. rewrite (IH k); [done|lia|lia|lia| | |lia].
    + nia.
    + nia.
Qed.

(** X2: the constructors from a vector return an object of [n] elements
    and [4 * n] slots for every vector of at most [2^30] elements, and
    crash for every longer one: the subscript [2 * v] leaves [int]. *)
Theorem vector_constructor_outcome (T_of_int : int → T) (T_plus : T → T → T)
    (vec : list int) f :
  let len := Z.of_nat (length vec) in
  len < SIZE_MOD →
  (len ≤ 2 ^ 30 →
   ∃ s, segment_tree_vec_foo T_of_int vec f = Ok s ∧
        n s = len ∧ foo s = f ∧ Z.of_nat (length (tree s)) = 4 * len) ∧
  (2 ^ 30 < len →
   segment_tree_vec_foo T_of_int vec f = Crash ∧
   segment_tree_vec T_of_int T_plus vec = Crash).
Proof.
  intros len Hlen. split.
  - intros Hsmall.
    destruct (segment_tree_vec_foo_total T_of_int vec f Hsmall) as [s Hs].
    exists s. split; [done|].
    apply segment_tree_vec_foo_Ok in Hs as ((Hwf & _) & Hfoo & Hn).
    rewrite length_vec_size in Hn by done.
    destruct Hwf as (_ & _ & Hslots). fold len in Hn. by rewrite Hslots, Hn.
  - intros Hbig. rewrite segment_tree_vec_unfold.
    assert (∀ g, segment_tree_vec_foo T_of_int vec g = Crash) as Hcrash; [|by split].
    intros g. unfold segment_tree_vec_foo. rewrite length_vec_size by done.
    fold len. destruct (vector_assign _ _) as [tr| |] eqn:Htr; simpl; [|done|].
    + rewrite pow2_30_eq in Hbig. rewrite decide_True by lia.
      rewrite size_sub_one by lia. unfold exec.
      rewrite (build_leftmost_crash T_of_int _ _ 30%nat); [done|lia|lia|lia| | |].
      * change (2 ^ Z.of_nat 30) with 1073741824. lia.
      * change (2 ^ Z.of_nat 30) with 1073741824. rewrite pow2_30_eq. lia.
      * unfold fuel_of. lia.
    + unfold vector_assign in Htr. by case_decide.
Qed.


End construction.

(** ** What an update rewrites *)

Section update_path.
Context {T : Type}.
Implicit Types (s : segment_tree T) (v w : Z) (vals : list T).

(** [update] at slot [v] writes on the path to the leaf of [idx] only. *)
Lemma writes_only_update_path fuel idx (val : T) v l r :
  0 < v → v ≤ INT_MAX → 0 ≤ l → l ≤ r → r < HALF →
  writes_only (path idx v l r) (update fuel idx val v l r).
Proof.
  revert v l r.
  induction fuel as [|fuel IH]; intros v l r Hv Hmax Hl Hlr Hr; simpl; [done|].
  case_decide as Heq.
  { apply writes_only_tree_write; [mlia | apply path_here]. }
  rewrite mid_eq, mid_succ_eq by lia.
  apply writes_only_bind.
  - case_decide as Hside.
    + apply writes_only_bind; [apply writes_only_readonly, readonly_left_child|].
      intros a s s1 (-> & _ & ?)%left_child_Ok.
      eapply writes_only_mono; [|apply IH; mlia].
      intros w _ Hw. apply path_left; [lia|done|done].
    + apply writes_only_bind; [apply writes_only_readonly, readonly_right_child|].
      intros a s s1 (-> & _ & ? & ?)%right_child_Ok.
      eapply writes_only_mono; [|apply IH; mlia].
      intros w _ Hw. apply path_right; [lia|lia|done].
  - intros _ _ _ _. eapply writes_only_mono; [|by apply writes_only_pull_up].
    intros w _ ->. apply path_here.
Qed.

(** Every slot on the path covers a range that contains [idx]. *)
Lemma path_covers cnt idx v l r w :
  path idx v l r w →
  covers cnt v l r → l ≤ idx → idx ≤ r →
  ∃ l' r', covers cnt w l' r' ∧ l' ≤ idx ∧ idx ≤ r'.
Proof.
  induction 1 as [v l r|v l r w Hlr Hside _ IH|v l r w Hlr Hside _ IH];
    intros Hcov Hl Hr.
  - by exists l, r.
  - apply IH; [by constructor|lia|lia].
  - apply IH; [by constructor|lia|lia].
Qed.

(** X4: [update_point(index, v)] with [index < n] keeps the size, the
    combiner and the number of slots, and rewrites no slot other than
    those that cover a range containing [index]. *)
Theorem update_rewrites_path_only (T_of_int : int → T) (T_plus : T → T → T)
    s index (val : T) s1 :
  reachable T_of_int T_plus s → 0 ≤ index → index < n s →
  update_point index val s = Ok (tt, s1) →
  n s1 = n s ∧ foo s1 = foo s ∧ length (tree s1) = length (tree s) ∧
  ∀ w, 0 ≤ w →
    ¬ (∃ l r, covers (n s) w l r ∧ l ≤ index ∧ index ≤ r) →
    tree s1 !! Z.to_nat w = tree s !! Z.to_nat w.
Proof.
  intros Hwf%reachable_wf Hindex Hlt Hrun.
  pose proof (wf_size _ Hwf) as [? ?].
  rewrite update_point_unfold, decide_True, size_sub_one in Hrun by lia.
  assert ((0:Z) < 1) as H01 by lia. assert (1 ≤ INT_MAX) as H1max by mlia.
  assert ((0:Z) ≤ 0) as H00 by lia. assert (0 ≤ n s - 1) as Hn1 by lia.
  pose proof (writes_only_update_path _ _ _ _ _ _ H01 H1max H00 Hn1 ltac:(done)
                _ _ _ Hrun) as (Hn & Hfoo & Hlen & Hslots).
  repeat split; try done.
  intros w Hw Hoff. symmetry. apply Hslots; [done|].
  intros Hpath. apply Hoff.
  eapply path_covers; [exact Hpath|constructor|lia|lia].
Qed.

End update_path.

(** ** A tree constructed from a size *)

Section sized.
Context {T : Type}.
Implicit Types (s : segment_tree T) (v w : Z) (vals : list T).

Lemma segment_tree_eta s : SegmentTree (n s) (tree s) (foo s) = s.
Proof. by destruct s. Qed.

(** On a storage that holds [T(0)] everywhere, with a combiner that
    maps two [T(0)] to [T(0)], [build] from zeros changes nothing. *)
Lemma build_on_zeros (T_of_int : int → T) len h v l r :
  alloc len h v l r →
  ∀ fuel (vec : list int) s,
    Z.of_nat (length (tree s)) = len → (h < fuel)%nat →
    (∀ i x, tree s !! i = Some x → x = T_of_int 0) →
    foo s (T_of_int 0) (T_of_int 0) = T_of_int 0 →
    r < Z.of_nat (length vec) →
    (∀ i x, vec !! i = Some x → x = 0) →
    build T_of_int fuel vec v l r s = Ok (tt, s).
Proof.
  induction 1 as [h v l Hv Hmax Hlen Hl Hhalf
                 |h v l r Hv Hmax Hlen Hl Hlr Hr Hleft IHl Hright IHr];
    intros fuel vec s Hs Hfuel Hzero Hfoo Hvec Hvals;
    (destruct fuel as [|fuel]; [lia|]); simpl.
  - rewrite decide_True by done.
    destruct (lookup_lt_is_Some_2 vec (Z.to_nat l)) as [x Hx]; [lia|].
    rewrite (bind_run _ _ s x s) by (by apply vec_read_Ok).
    rewrite (Hvals _ _ Hx).
    rewrite tree_write_run by mlia. do 2 f_equal.
    destruct (lookup_slot s v) as [y Hy]; [lia..|].
    rewrite <-(Hzero _ _ Hy), list_insert_id by done. apply segment_tree_eta.
  - rewrite decide_False by lia. rewrite mid_eq, mid_succ_eq by lia.
    rewrite (bind_run _ _ s (2 * v) s) by (apply left_child_run; mlia).
    rewrite (bind_run _ _ s tt s) by (apply IHl; try done; lia).
    rewrite (bind_run _ _ s (2 * v + 1) s) by (apply right_child_run; mlia).
    rewrite (bind_run _ _ s tt s) by (apply IHr; try done; lia).
    assert (v ≤ INT_MAX) as Hmax' by mlia.
    apply (pull_up_Ok v s tt s Hv Hmax').
    apply alloc_inv in Hleft, Hright.
    destruct (lookup_slot s (2 * v)) as [a Ha]; [lia..|].
    destruct (lookup_slot s (2 * v + 1)) as [b Hb]; [lia..|].
    destruct (lookup_slot s v) as [y Hy]; [lia..|].
    exists a, b. repeat split; try done; try lia.
    rewrite (Hzero _ _ Ha), (Hzero _ _ Hb), Hfoo.
    rewrite <-(Hzero _ _ Hy), list_insert_id by done.
    symmetry. apply segment_tree_eta.
Qed.

(** The constructor from a size and the constructor from a vector of
    zeros. *)
Lemma sized_eq_built_from_zeros (T_of_int : int → T) (cnt : int) f :
  0 ≤ cnt → 4 * cnt ≤ INT_MAX →
  f (T_of_int 0) (T_of_int 0) = T_of_int 0 →
  segment_tree_vec_foo T_of_int (replicate (Z.to_nat cnt) 0) f
  = segment_tree_n_foo T_of_int cnt f.
Proof.
  intros Hcnt Hfit Hfoo.
  rewrite (proj2 (segment_tree_n_foo_Ok T_of_int cnt f
             (SegmentTree cnt (replicate (Z.to_nat (4 * cnt)) (T_of_int 0)) f)));
    [|done].
  unfold segment_tree_vec_foo. cbv zeta.
  rewrite length_vec_size; rewrite length_replicate; [|mlia].
  rewrite !Z2Nat.id by done.
  assert (size_mul 4 cnt = 4 * cnt) as ->.
  { unfold size_mul. apply to_size_t_small. mlia. }
  unfold vector_assign. rewrite decide_True by mlia. simpl.
  case_decide as Hne; [|done].
  set (s0 := SegmentTree cnt _ f).
  assert (wf s0) as Hwf.
  { unfold wf. simpl. rewrite length_replicate, pow2_30_eq. mlia. }
  assert (0 < n s0) as Hpos by (simpl; lia).
  rewrite size_sub_one by mlia. unfold exec.
  rewrite (build_on_zeros T_of_int _ _ _ _ _ (wf_alloc s0 Hwf Hpos)); try done.
  - by apply fuel_of_enough.
  - simpl. by intros i x [-> _]%lookup_replicate.
  - rewrite length_replicate. unfold s0. simpl. lia.
  - by intros i x [-> _]%lookup_replicate.
Qed.

(** X5: when the combiner maps two [T(0)] to [T(0)], the constructor
    from a size [n] returns the very object that the constructor from a
    vector of [n] zeros returns. *)
Theorem sized_is_built_from_zeros (T_of_int : int → T) (cnt : int) f :
  0 ≤ cnt → 4 * cnt ≤ INT_MAX →
  f (T_of_int 0) (T_of_int 0) = T_of_int 0 →
  segment_tree_vec_foo T_of_int (replicate (Z.to_nat cnt) 0) f
  = segment_tree_n_foo T_of_int cnt f.
Proof. apply sized_eq_built_from_zeros. Qed.

Lemma sized_represents (T_of_int : int → T) (T_plus : T → T → T) cnt f s :
  sized_as T_of_int T_plus cnt f s →
  f (T_of_int 0) (T_of_int 0) = T_of_int 0 →
  represents s (replicate (Z.to_nat cnt) (T_of_int 0)) ∧ foo s = f ∧ n s = cnt.
Proof.
  intros Hs Hfoo.
  assert (segment_tree_n_foo T_of_int cnt f = Ok s) as Hs'.
  { destruct Hs as [?|[-> ?]]; [done|by rewrite <-segment_tree_n_unfold]. }
  pose proof Hs' as (Hcnt & Hfit & _)%segment_tree_n_foo_Ok.
  rewrite <-sized_eq_built_from_zeros in Hs' by done.
  apply segment_tree_vec_foo_Ok in Hs' as (Hrep & ? & Hn).
  rewrite fmap_replicate in Hrep. split; [done|]. split; [done|].
  rewrite Hn, length_vec_size; rewrite length_replicate; mlia.
Qed.

(** X6: on a tree constructed from a size, with an associative combiner
    that maps two [T(0)] to [T(0)], after any valid point updates a query
    with [left <= right < n] returns the fold of the current values, which
    start as [T(0)] everywhere. *)
Theorem sized_query_folds_range (T_of_int : int → T) (T_plus : T → T → T)
    cnt f s ups :
  Assoc (=) f →
  f (T_of_int 0) (T_of_int 0) = T_of_int 0 →
  sized_as T_of_int T_plus cnt f s →
  Forall (λ u : size_t * T, 0 ≤ u.1 ∧ u.1 < n s) ups →
  ∃ s1, run_updates ups s = Ok s1 ∧
    ∀ left right, 0 ≤ left → left ≤ right → right < n s1 →
      ∃ x, get T_of_int left right s1 = Ok (x, s1) ∧
           range_fold f (logical (replicate (Z.to_nat cnt) (T_of_int 0)) ups)
             left right = Some x.
Proof.
  intros Hassoc Hzero Hsized Hups.
  destruct (sized_represents _ _ _ _ _ Hsized Hzero) as (Hrep & Hfoo & _).
  destruct (run_updates_represents ups s _ Hrep)
    as (s1 & vals1 & Hrun & Hrep1 & Hn1 & Hfoo1 & Hvals).
  { eapply Forall_impl; [exact Hups|]. by intros u [? _]. }
  rewrite Hvals in Hrep1 by (eapply Forall_impl; [exact Hups|]; by intros u [_ ?]).
  exists s1. split; [done|]. intros left right Hleft Hq Hright.
  rewrite <-Hfoo, <-Hfoo1. apply get_represents; try done.
  by rewrite Hfoo1, Hfoo.
Qed.

End sized.

(** ** Queries and the history of updates *)

Section history.
Context {T : Type}.
Implicit Types (s : segment_tree T) (v w : Z) (vals : list T).

(** The public face of [update_get_same] and [update_get_other]. *)
Lemma update_point_get (T_of_int : int → T) s index (val : T) s1 :
  wf s → 0 ≤ index → index < n s →
  update_point index val s = Ok (tt, s1) →
  wf s1 ∧ n s1 = n s ∧ foo s1 = foo s ∧
  get T_of_int index index s1 = Ok (val, s1) ∧
  ∀ left right, 0 ≤ right → ¬ (left ≤ index ∧ index ≤ right) →
    ∃ x, get T_of_int left right s = Ok (x, s) ∧
         get T_of_int left right s1 = Ok (x, s1).
Proof.
  intros Hwf Hindex Hlt Hrun.
  destruct (update_point_in index val s Hwf Hindex Hlt)
    as (s1' & Hrun' & Hup & Hwf1 & Hn1 & Hfoo1).
  assert (s1' = s1) as -> by congruence.
  pose proof (wf_size _ Hwf) as [? ?].
  assert ((0:Z) < 1) as H01 by lia. assert (1 ≤ INT_MAX) as H1max by mlia.
  split; [done|]. split; [done|]. split; [done|]. split.
  - destruct (get_total T_of_int index index s1 Hwf1 Hindex) as [x Hx].
    rewrite Hx. do 2 f_equal.
    assert (eval (get T_of_int index index) s1 = Ok x) as Hev
      by (apply eval_Ok; eauto).
    unfold eval in Hev.
    rewrite get_unfold, decide_True, Hn1, size_sub_one in Hev by lia.
    assert (eval (get_rec (fuel_of (n s)) index index 1 0 (n s - 1)) s1 = Ok val)
      as Hsame.
    { eapply (update_get_same _ _ _ _ _ _ _ _ H01 H1max);
        [..|exact Hup|apply same_on_refl]; lia. }
    unfold eval in Hsame. congruence.
  - intros left right Hright Hout.
    destruct (get_total T_of_int left right s Hwf Hright) as [x Hx].
    destruct (get_total T_of_int left right s1 Hwf1 Hright) as [x1 Hx1].
    exists x. split; [done|]. rewrite Hx1. do 2 f_equal.
    assert (eval (get T_of_int left right) s1 = eval (get T_of_int left right) s)
      as Hev.
    { unfold eval. rewrite !get_unfold, Hn1. case_decide; [|done].
      rewrite size_sub_one by lia.
      eapply (update_get_other _ _ _ _ _ _ _ _ _ _ H01 H1max); [..|exact Hup];
        lia. }
    unfold eval in Hev. rewrite Hx, Hx1 in Hev. simpl in Hev. congruence.
Qed.

(** A query of one position on a shaped subtree reads the value of that
    position, whatever the combiner. *)
Lemma get_rec_point_shaped fuel j v l r s x s1 vals :
  shaped s vals v l r → v ≤ INT_MAX → r < HALF → l ≤ j → j ≤ r →
  get_rec fuel j j v l r s = Ok (x, s1) →
  vals !! Z.to_nat j = Some x.
Proof.
  revert v l r.
  induction fuel as [|fuel IH]; intros v l r Hsh Hmax Hr Hlj Hjr; simpl; [done|].
  pose proof (shaped_inv _ _ _ _ _ Hsh) as (Hv & Hl & Hlr).
  case_decide as Hcov.
  - assert (l = j ∧ r = j) as [-> ->] by lia.
    intros (-> & Hx)%tree_read_Ok. rewrite to_size_t_small in Hx by mlia.
    inversion Hsh; subst; [congruence|lia].
  - inversion Hsh as [|? ? ? a b _ _ _ Hleft Hright Ha Hb Hab]; [lia|]; subst.
    rewrite mid_eq, mid_succ_eq by lia.
    repeat case_decide; try lia.
    + intros (vl & s' & (-> & -> & ?)%left_child_Ok & Hget)%bind_Ok.
      eapply IH; [exact Hleft| | | | |exact Hget]; mlia.
    + intros (vr & s' & (-> & -> & ? & ?)%right_child_Ok & Hget)%bind_Ok.
      eapply IH; [exact Hright| | | | |exact Hget]; mlia.
Qed.

(** A query of one position reads one slot. *)
Lemma get_rec_point_slot fuel j v l r s x s1 :
  get_rec fuel j j v l r s = Ok (x, s1) → ∃ i, tree s !! i = Some x.
Proof.
  revert v l r. induction fuel as [|fuel IH]; intros v l r; simpl; [done|].
  repeat case_decide; try lia.
  - intros (-> & Hx)%tree_read_Ok. eauto.
  - intros (vl & s' & (-> & -> & ?)%left_child_Ok & Hget)%bind_Ok. eauto.
  - intros (vr & s' & (-> & -> & ? & ?)%right_child_Ok & Hget)%bind_Ok. eauto.
Qed.

(** After construction a query of one position returns the value the
    object starts from. *)
Lemma starts_from_points (T_of_int : int → T) (T_plus : T → T → T) s vals :
  starts_from T_of_int T_plus s vals →
  wf s ∧ ∀ j, 0 ≤ j → j < n s →
    ∃ x, vals !! Z.to_nat j = Some x ∧ get T_of_int j j s = Ok (x, s).
Proof.
  destruct 1 as [cnt f s Hs|vec f s Hs].
  - apply sized_as_Ok in Hs as (Hcnt & Hfit & ->).
    assert (wf (SegmentTree cnt (replicate (Z.to_nat (4 * cnt)) (T_of_int 0)) f))
      as Hwf.
    { unfold wf. simpl. rewrite length_replicate, pow2_30_eq. mlia. }
    split; [done|]. simpl. intros j Hj Hlt. exists (T_of_int 0).
    split; [apply lookup_replicate_2; lia|].
    destruct (get_total T_of_int j j _ Hwf Hj) as [x Hx].
    rewrite Hx. do 2 f_equal.
    rewrite get_unfold in Hx. case_decide; [|by injection Hx as <-].
    apply get_rec_point_slot in Hx as [i Hi]. simpl in Hi.
    by apply lookup_replicate in Hi as [-> _].
  - apply built_from_represents in Hs as ((Hwf & Hlen & Hsh) & _ & _).
    split; [done|]. intros j Hj Hlt.
    destruct (get_total T_of_int j j _ Hwf Hj) as [x Hx].
    exists x. split; [|done].
    pose proof (wf_size _ Hwf) as [? ?].
    rewrite get_unfold, decide_True, size_sub_one in Hx by lia.
    eapply get_rec_point_shaped; [apply Hsh| | | | |exact Hx]; mlia.
Qed.

(** X7: whatever the constructor and whatever the combiner, after any
    valid point updates the query of one position returns the value
    last written there, or the value the object started from. *)
Theorem point_query_reads_last_write (T_of_int : int → T) (T_plus : T → T → T)
    s vals ups :
  starts_from T_of_int T_plus s vals →
  Forall (λ u : size_t * T, 0 ≤ u.1 ∧ u.1 < n s) ups →
  ∃ s1, run_updates ups s = Ok s1 ∧
    ∀ j, 0 ≤ j → j < n s →
      ∃ x, logical vals ups !! Z.to_nat j = Some x ∧
           get T_of_int j j s1 = Ok (x, s1).
Proof.
  intros [Hwf Hpoints]%starts_from_points Hups. clear T_plus.
  remember (n s) as cnt eqn:Hcnt.
  revert s vals Hcnt Hwf Hpoints.
  induction Hups as [|[point val] ups [Hpoint Hlt] _ IH];
    intros s vals Hcnt Hwf Hpoints; simpl in *; subst cnt.
  { by exists s. }
  destruct (update_point_in point val s Hwf Hpoint Hlt) as (s1 & Hrun & _).
  destruct (update_point_get T_of_int s point val s1 Hwf Hpoint Hlt Hrun)
    as (Hwf1 & Hn1 & _ & Hsame & Hother).
  unfold exec. rewrite Hrun. simpl.
  apply IH; [done|done|]. intros j Hj Hjn.
  destruct (Hpoints point Hpoint Hlt) as (y & Hy & _).
  destruct (decide (j = point)) as [->|Hne].
  - exists val. split; [|done].
    apply list_lookup_insert_eq. by eapply lookup_lt_Some.
  - destruct (Hpoints j Hj Hjn) as (x & Hx & Hget).
    destruct (Hother j j Hj ltac:(lia)) as (x' & Hget' & Hget1).
    assert (x' = x) as -> by congruence.
    exists x. split; [|done]. rewrite list_lookup_insert_ne by lia. done.
Qed.

(** The slot of a shaped subtree is determined by the values and the
    combiner. *)
Lemma shaped_unique s s' vals v l r :
  shaped s vals v l r → shaped s' vals v l r → foo s = foo s' →
  tree s !! Z.to_nat v = tree s' !! Z.to_nat v.
Proof.
  intros Hsh. revert s'.
  induction Hsh as [v l x Hv Hl Hx Hval
                   |v l r a b Hv Hl Hlr _ IHl _ IHr Ha Hb Hab];
    intros s' Hsh' Hfoo.
  - inversion Hsh'; subst; [congruence|lia].
  - inversion Hsh' as [|? ? ? a' b' _ _ _ Hl' Hr' Ha' Hb' Hab']; subst; [lia|].
    specialize (IHl _ Hl' Hfoo). specialize (IHr _ Hr' Hfoo).
    rewrite Hab, Hab', <-Hfoo. do 2 f_equal; congruence.
Qed.

(** The private [get] on two objects agrees as soon as it agrees on the
    children that the query reaches. *)
Lemma get_rec_congr_reached fg left right v l r s1 s :
  0 ≤ l → l ≤ r → r < HALF → left ≤ right →
  foo s1 = foo s →
  ¬ (left ≤ l ∧ r ≤ right) →
  (left ≤ (l + r) / 2 → INT_MIN ≤ 2 * v ≤ INT_MAX →
   eval (get_rec fg left right (2 * v) l ((l + r) / 2)) s1
   = eval (get_rec fg left right (2 * v) l ((l + r) / 2)) s) →
  ((l + r) / 2 < right → INT_MIN ≤ 2 * v → 2 * v + 1 ≤ INT_MAX →
   eval (get_rec fg left right (2 * v + 1) ((l + r) / 2 + 1) r) s1
   = eval (get_rec fg left right (2 * v + 1) ((l + r) / 2 + 1) r) s) →
  eval (get_rec (S fg) left right v l r) s1
  = eval (get_rec (S fg) left right v l r) s.
Proof.
  intros Hl Hlr Hr Hq Hfoo Hcov HA HB. simpl.
  rewrite decide_False by done. rewrite mid_eq, mid_succ_eq by lia.
  repeat case_decide.
  - apply eval_bind_congr; [apply readonly_left_child|apply eval_left_child|].
    intros a (-> & _ & ?)%left_child_Ok. apply HA; [lia|done].
  - apply eval_bind_congr; [apply readonly_right_child|apply eval_right_child|].
    intros a (-> & _ & ? & ?)%right_child_Ok. apply HB; [lia|done..].
  - apply eval_bind_congr; [apply readonly_left_child|apply eval_left_child|].
    intros vl (-> & _ & ?)%left_child_Ok.
    apply eval_bind_congr; [apply readonly_get_rec|apply HA; [lia|done]|].
    intros a _.
    apply eval_bind_congr; [apply readonly_right_child|apply eval_right_child|].
    intros vr (-> & _ & ? & ?)%right_child_Ok.
    apply eval_bind_congr; [apply readonly_get_rec|apply HB; [lia|done..]|].
    intros b _. unfold eval, call_foo. simpl. by rewrite Hfoo.
Qed.

Lemma get_rec_same_shape fuel left right v l r s s' vals :
  shaped s vals v l r → shaped s' vals v l r → foo s = foo s' →
  v ≤ INT_MAX → r < HALF →
  left ≤ right → left ≤ r → l ≤ right →
  eval (get_rec fuel left right v l r) s = eval (get_rec fuel left right v l r) s'.
Proof.
  revert v l r.
  induction fuel as [|fuel IH]; intros v l r Hsh Hsh' Hfoo Hmax Hr Hq Hqr Hql;
    [done|].
  pose proof (shaped_inv _ _ _ _ _ Hsh) as (Hv & Hl & Hlr).
  destruct (decide (left ≤ l ∧ r ≤ right)) as [Hcov|Hcov].
  - simpl. rewrite decide_True by done. unfold eval, tree_read.
    rewrite to_size_t_small by mlia.
    rewrite (shaped_unique _ _ _ _ _ _ Hsh Hsh' Hfoo).
    by destruct (tree s' !! _).
  - inversion Hsh as [|? ? ? a b _ _ _ Hleft Hright _ _ _]; [lia|]; subst.
    inversion Hsh' as [|? ? ? a' b' _ _ _ Hleft' Hright' _ _ _]; [lia|]; subst.
    apply get_rec_congr_reached; try done.
    + intros ? ?. apply IH; try done; mlia.
    + intros ? ? ?. apply IH; try done; mlia.
Qed.

(** Two objects that stand for the same values, with the same size and
    combiner, answer every query alike. *)
Lemma same_values_same_answers (T_of_int : int → T) s1 s2 vals left right :
  represents s1 vals → represents s2 vals →
  n s1 = n s2 → foo s1 = foo s2 →
  0 ≤ left → left ≤ right → right < n s1 →
  ∃ x, get T_of_int left right s1 = Ok (x, s1) ∧
       get T_of_int left right s2 = Ok (x, s2).
Proof.
  intros (Hwf1 & _ & Hsh1) (Hwf2 & _ & Hsh2) Hn Hfoo Hleft Hq Hright.
  destruct (get_total T_of_int left right s1 Hwf1 ltac:(lia)) as [x Hx].
  destruct (get_total T_of_int left right s2 Hwf2 ltac:(lia)) as [x2 Hx2].
  exists x. split; [done|]. rewrite Hx2. do 2 f_equal.
  pose proof (wf_size _ Hwf1) as [? ?].
  assert (eval (get T_of_int left right) s1 = eval (get T_of_int left right) s2)
    as Hev.
  { unfold eval. rewrite !get_unfold, <-Hn, !decide_True, size_sub_one by lia.
    eapply get_rec_same_shape; [apply Hsh1; lia|rewrite Hn; apply Hsh2; lia|..];
      try done; mlia. }
  unfold eval in Hev. rewrite Hx, Hx2 in Hev. simpl in Hev. congruence.
Qed.

Lemma run_updates_valid (T_of_int : int → T) (T_plus : T → T → T) vec f s ups :
  built_from T_of_int T_plus vec f s →
  Forall (λ u : size_t * T, 0 ≤ u.1 ∧ u.1 < n s) ups →
  ∃ s1, run_updates ups s = Ok s1 ∧
        represents s1 (logical (T_of_int <$> vec) ups) ∧
        n s1 = n s ∧ foo s1 = foo s.
Proof.
  intros Hbuilt Hups.
  destruct (built_from_represents _ _ _ _ _ Hbuilt) as (Hrep & _ & _).
  destruct (run_updates_represents ups s _ Hrep)
    as (s1 & vals1 & Hrun & Hrep1 & Hn1 & Hfoo1 & Hvals).
  { eapply Forall_impl; [exact Hups|]. by intros u [? _]. }
  rewrite Hvals in Hrep1 by (eapply Forall_impl; [exact Hups|]; by intros u [_ ?]).
  by exists s1.
Qed.

Lemma same_values_after (T_of_int : int → T) (T_plus : T → T → T)
    vec f s ups ups' :
  built_from T_of_int T_plus vec f s →
  Forall (λ u : size_t * T, 0 ≤ u.1 ∧ u.1 < n s) ups →
  Forall (λ u : size_t * T, 0 ≤ u.1 ∧ u.1 < n s) ups' →
  logical (T_of_int <$> vec) ups = logical (T_of_int <$> vec) ups' →
  ∃ s1 s2, run_updates ups s = Ok s1 ∧ run_updates ups' s = Ok s2 ∧
    ∀ left right, 0 ≤ left → left ≤ right → right < n s →
      ∃ x, get T_of_int left right s1 = Ok (x, s1) ∧
           get T_of_int left right s2 = Ok (x, s2).
Proof.
  intros Hbuilt Hups Hups' Hsame.
  destruct (run_updates_valid _ _ _ _ _ _ Hbuilt Hups) as (s1 & Hr1 & Hrep1 & Hn1 & Hf1).
  destruct (run_updates_valid _ _ _ _ _ _ Hbuilt Hups') as (s2 & Hr2 & Hrep2 & Hn2 & Hf2).
  exists s1, s2. split; [done|]. split; [done|]. intros left right Hleft Hq Hright.
  rewrite <-Hsame in Hrep2.
  eapply same_values_same_answers; try done; congruence.
Qed.

(** X8: whatever the combiner, the answers of a tree built from a
    sequence depend on the current values only: two lists of valid
    updates that leave the same values give the same answer to every
    query with [left <= right < n]. *)
Theorem answers_depend_on_values (T_of_int : int → T) (T_plus : T → T → T)
    vec f s ups ups' :
  built_from T_of_int T_plus vec f s →
  Forall (λ u : size_t * T, 0 ≤ u.1 ∧ u.1 < n s) ups →
  Forall (λ u : size_t * T, 0 ≤ u.1 ∧ u.1 < n s) ups' →
  logical (T_of_int <$> vec) ups = logical (T_of_int <$> vec) ups' →
  ∃ s1 s2, run_updates ups s = Ok s1 ∧ run_updates ups' s = Ok s2 ∧
    ∀ left right, 0 ≤ left → left ≤ right → right < n s →
      ∃ x, get T_of_int left right s1 = Ok (x, s1) ∧
           get T_of_int left right s2 = Ok (x, s2).
Proof. apply same_values_after. Qed.

Lemma logical_app vals (ups ups' : list (size_t * T)) :
  logical vals (ups ++ ups') = logical (logical vals ups) ups'.
Proof. apply foldl_app. Qed.

(** X9: of two updates of the same position in a row only the second
    counts: every query answers as if the first had not been made. *)
Theorem last_update_wins (T_of_int : int → T) (T_plus : T → T → T)
    vec f s ups index (a b : T) :
  built_from T_of_int T_plus vec f s →
  Forall (λ u : size_t * T, 0 ≤ u.1 ∧ u.1 < n s) ups →
  0 ≤ index → index < n s →
  ∃ s1 s2,
    run_updates (ups ++ [(index, a); (index, b)]) s = Ok s1 ∧
    run_updates (ups ++ [(index, b)]) s = Ok s2 ∧
    ∀ left right, 0 ≤ left → left ≤ right → right < n s →
      ∃ x, get T_of_int left right s1 = Ok (x, s1) ∧
           get T_of_int left right s2 = Ok (x, s2).
Proof.
  intros Hbuilt Hups Hindex Hlt.
  apply (same_values_after T_of_int T_plus vec f); try done.
  - apply Forall_app. split; [done|]. by repeat constructor.
  - apply Forall_app. split; [done|]. by repeat constructor.
  - rewrite !logical_app. simpl. apply list_insert_insert_eq.
Qed.

(** X10: updates of two different positions commute: every query
    answers the same whichever of the two is made first. *)
Theorem updates_commute (T_of_int : int → T) (T_plus : T → T → T)
    vec f s ups i j (a b : T) :
  built_from T_of_int T_plus vec f s →
  Forall (λ u : size_t * T, 0 ≤ u.1 ∧ u.1 < n s) ups →
  0 ≤ i → i < n s → 0 ≤ j → j < n s → i ≠ j →
  ∃ s1 s2,
    run_updates (ups ++ [(i, a); (j, b)]) s = Ok s1 ∧
    run_updates (ups ++ [(j, b); (i, a)]) s = Ok s2 ∧
    ∀ left right, 0 ≤ left → left ≤ right → right < n s →
      ∃ x, get T_of_int left right s1 = Ok (x, s1) ∧
           get T_of_int left right s2 = Ok (x, s2).
Proof.
  intros Hbuilt Hups Hi Hin Hj Hjn Hne.
  apply (same_values_after T_of_int T_plus vec f); try done.
  - apply Forall_app. split; [done|]. by repeat constructor.
  - apply Forall_app. split; [done|]. by repeat constructor.
  - rewrite !logical_app. simpl. apply list_insert_insert_ne. lia.
Qed.

End history.

(** ** The further properties at the objects of the usage example *)

Lemma st_sum_tree_updated (f : int → int → int) :
  update_point 2 7
    (SegmentTree 5 [0; 58; 7; 51; 6; 1; 42; 9; 2; 4; 0; 0; 0; 0; 0; 0; 0; 0; 0; 0] f)
  = Ok (tt, SegmentTree 5
              [0; f (f 6 7) 51; f 6 7; 51; 6; 7; 42; 9; 2; 4;
               0; 0; 0; 0; 0; 0; 0; 0; 0; 0] f).
Proof. vm_compute. reflexivity. Qed.


Lemma vector_constructor_outcome_witness :
  (∃ s, segment_tree_vec_foo id main_v int_plus = Ok s ∧
        n s = 5 ∧ foo s = int_plus ∧ Z.of_nat (length (tree s)) = 4 * 5) ∧
  (segment_tree_vec_foo id (replicate (Z.to_nat 1073741825) 0) int_plus = Crash ∧
   segment_tree_vec id int_plus (replicate (Z.to_nat 1073741825) 0) = Crash).
Proof.
  split.
  - apply (vector_constructor_outcome id int_plus main_v int_plus).
    + simpl. mlia.
    + simpl. rewrite pow2_30_eq. lia.
  - apply (vector_constructor_outcome id int_plus
             (replicate (Z.to_nat 1073741825) 0) int_plus).
    + rewrite length_replicate, Z2Nat.id by lia. mlia.
    + rewrite length_replicate, Z2Nat.id by lia. rewrite pow2_30_eq. lia.
Defined.


Lemma update_rewrites_path_only_witness :
  n (SegmentTree 5 [0; 64; 13; 51; 6; 7; 42; 9; 2; 4;
                    0; 0; 0; 0; 0; 0; 0; 0; 0; 0] int_plus) = n st_sum_tree ∧
  foo (SegmentTree 5 [0; 64; 13; 51; 6; 7; 42; 9; 2; 4;
                      0; 0; 0; 0; 0; 0; 0; 0; 0; 0] int_plus) = foo st_sum_tree ∧
  length (tree (SegmentTree 5 [0; 64; 13; 51; 6; 7; 42; 9; 2; 4;
                               0; 0; 0; 0; 0; 0; 0; 0; 0; 0] int_plus))
  = length (tree st_sum_tree) ∧
  ∀ w, 0 ≤ w →
    ¬ (∃ l r, covers (n st_sum_tree) w l r ∧ l ≤ 2 ∧ 2 ≤ r) →
    tree (SegmentTree 5 [0; 64; 13; 51; 6; 7; 42; 9; 2; 4;
                         0; 0; 0; 0; 0; 0; 0; 0; 0; 0] int_plus) !! Z.to_nat w
    = tree st_sum_tree !! Z.to_nat w.
Proof.
  apply (update_rewrites_path_only id int_plus st_sum_tree 2 7).
  - apply st_sum_tree_reachable.
  - lia.
  - simpl. lia.
  - apply st_sum_tree_updated.
Defined.

Lemma sized_is_built_from_zeros_witness :
  segment_tree_vec_foo id (replicate (Z.to_nat 3) 0) int_plus
  = segment_tree_n_foo id 3 int_plus.
Proof.
  apply (sized_is_built_from_zeros id 3 int_plus); [lia|mlia|].
  vm_compute. reflexivity.
Defined.

Lemma sized_tree_built :
  sized_as id int_plus 5 int_plus
    (SegmentTree 5 (replicate (Z.to_nat (4 * 5)) (id 0)) int_plus).
Proof. left. apply segment_tree_n_foo_Ok. repeat split; mlia. Qed.

Lemma sized_query_folds_range_witness :
  ∃ s1, run_updates [(2, 7); (4, 1)]
          (SegmentTree 5 (replicate (Z.to_nat (4 * 5)) (id 0)) int_plus) = Ok s1 ∧
    ∀ left right, 0 ≤ left → left ≤ right → right < n s1 →
      ∃ x, get id left right s1 = Ok (x, s1) ∧
           range_fold int_plus
             (logical (replicate (Z.to_nat 5) (id 0)) [(2, 7); (4, 1)])
             left right = Some x.
Proof.
  apply (sized_query_folds_range id int_plus 5 int_plus).
  - apply int_plus_assoc.
  - vm_compute. reflexivity.
  - apply sized_tree_built.
  - repeat constructor; simpl; lia.
Defined.

Lemma point_query_reads_last_write_witness :
  ∃ s1, run_updates [(2, 7); (2, 8)] st_sum_tree = Ok s1 ∧
    ∀ j, 0 ≤ j → j < n st_sum_tree →
      ∃ x, logical (id <$> main_v) [(2, 7); (2, 8)] !! Z.to_nat j = Some x ∧
           get id j j s1 = Ok (x, s1).
Proof.
  apply (point_query_reads_last_write id int_plus st_sum_tree).
  - apply (starts_built id int_plus main_v int_plus). apply st_sum_tree_built.
  - repeat constructor; simpl; lia.
Defined.

Lemma answers_depend_on_values_witness :
  ∃ s1 s2,
    run_updates [(2, 7); (2, 1)] st_sum_tree = Ok s1 ∧
    run_updates [] st_sum_tree = Ok s2 ∧
    ∀ left right, 0 ≤ left → left ≤ right → right < n st_sum_tree →
      ∃ x, get id left right s1 = Ok (x, s1) ∧ get id left right s2 = Ok (x, s2).
Proof.
  apply (answers_depend_on_values id int_plus main_v int_plus).
  - apply st_sum_tree_built.
  - repeat constructor; simpl; lia.
  - constructor.
  - reflexivity.
Defined.

Lemma last_update_wins_witness :
  ∃ s1 s2,
    run_updates ([(0, 3)] ++ [(2, 7); (2, 8)]) st_sum_tree = Ok s1 ∧
    run_updates ([(0, 3)] ++ [(2, 8)]) st_sum_tree = Ok s2 ∧
    ∀ left right, 0 ≤ left → left ≤ right → right < n st_sum_tree →
      ∃ x, get id left right s1 = Ok (x, s1) ∧ get id left right s2 = Ok (x, s2).
Proof.
  apply (last_update_wins id int_plus main_v int_plus).
  - apply st_sum_tree_built.
  - repeat constructor; simpl; lia.
  - lia.
  - simpl. lia.
Defined.

Lemma updates_commute_witness :
  ∃ s1 s2,
    run_updates ([(0, 3)] ++ [(2, 7); (4, 8)]) st_sum_tree = Ok s1 ∧
    run_updates ([(0, 3)] ++ [(4, 8); (2, 7)]) st_sum_tree = Ok s2 ∧
    ∀ left right, 0 ≤ left → left ≤ right → right < n st_sum_tree →
      ∃ x, get id left right s1 = Ok (x, s1) ∧ get id left right s2 = Ok (x, s2).
Proof.
  apply (updates_commute id int_plus main_v int_plus).
  - apply st_sum_tree_built.
  - repeat constructor; simpl; lia.
  - lia.
  - simpl. lia.
  - lia.
  - simpl. lia.
  - lia.
Defined.
